(** * DBeyond: join-order cost model, candidate reduction and selection

    A shallow embedding of the Python sources

      - [src/Quantum Enabled Query Optimizer/query_visualizer.py]
        (class [QueryFeatureExtractor]),
      - [src/Quantum Enabled Query Optimizer/quantum_prep.py]
        (class [QuantumPrep]),
      - [src/quantum_optimizer.py] (class [QuantumQueryOptimizer]),

    together with the properties stated about them.

    Conventions.
      - A Python [dict] whose iteration order matters (the weights, the table
        statistics, a result distribution) is an association list; a [dict]
        that is only looked up is a [gmap].
      - A [KeyError], [ValueError] or [OverflowError] is the result [None].
      - Python [float]s that are only added, multiplied, divided and compared
        (costs, selectivities, probabilities) are read as exact rationals
        [Qc]: [0.1] is 1/10, [1e6] is 1000000.  Rounding is outside this
        reading.  The normaliser of [quantum_prep.py] needs a square root; it
        is written once over an interface of arithmetic operations and read
        both over the reals and over IEEE binary64.
      - numpy, qiskit and sqlite are outside the repository.  [np.argmin] is
        written out from its documentation (first index of the least value),
        [np.argsort] is an interface with its documented contract, and the
        quantum sampler is an oracle whose outcome is a parameter. *)

From Stdlib Require Import QArith Qcanon Reals Floats Lra Factorial.
From Stdlib Require Import Ascii String.
From stdpp Require Import base option list gmap strings numbers sorting.

Local Open Scope string_scope.
Local Open Scope Z_scope.
Local Open Scope list_scope.

(** ** Python values that occur in a feature record *)

Inductive PyVal : Type :=
  | VBool (b : bool)
  | VInt (n : Z).

(** [if isinstance(val, bool): val = 1 if val else 0] *)
Definition coerce (val : PyVal) : Z :=
  match val with
  | VBool b => if b then 1 else 0
  | VInt n => n
  end.

(** ** query_visualizer.py *)

Module QueryVisualizer.

Record QueryFeatureExtractor : Type := {
  weights : list (string * Z);
  threshold : Z
}.

(** [QueryFeatureExtractor.__init__] *)
Definition init : QueryFeatureExtractor := {|
  weights := [("joins", 2); ("subqueries", 3); ("aggregations", 1);
              ("group_by", 1); ("having", 2); ("analytical_fn", 3);
              ("length", 1)];
  threshold := 4
|}.

(** One turn of the loop of [compute_complexity]: [features[key]] fails on
    a missing key, the [length] field is skipped by [continue] when it is
    at most 150. *)
Definition complexity_step (features : gmap string PyVal)
    (score : option Z) (item : string * Z) : option Z :=
  let '(key, weight) := item in
  score ← score;
  val ← features !! key;
  let val := coerce val in
  if bool_decide (key = "length") && bool_decide (val ≤ 150)
  then Some score
  else Some (score + val * weight).

Definition compute_complexity (self : QueryFeatureExtractor)
    (features : gmap string PyVal) : option Z :=
  foldl (complexity_step features) (Some 0) (weights self).

(** ["Complex" if score >= self.threshold else "Simple"] *)
Definition classification (self : QueryFeatureExtractor) (score : Z) : string :=
  if bool_decide (threshold self ≤ score) then "Complex" else "Simple".

Record Classified : Type := {
  features_of : gmap string PyVal;
  complexity_score : Z;
  classification_of : string
}.

(** [classify], on the outcome of [extract_features]: [None] is the
    record [{"error": ...}] that the parser's failure produces. *)
Definition classify (self : QueryFeatureExtractor)
    (extracted : option (gmap string PyVal)) : option Classified :=
  features ← extracted;
  score ← compute_complexity self features;
  Some {| features_of := features;
          complexity_score := score;
          classification_of := classification self score |}.

(** The feature record of the scenario. *)
Definition scenario_features : gmap string PyVal :=
  list_to_map [("joins", VInt 2); ("subqueries", VInt 1);
               ("aggregations", VInt 0); ("group_by", VBool true);
               ("having", VBool false); ("analytical_fn", VBool false);
               ("length", VInt 200)].

End QueryVisualizer.

(** ** quantum_prep.py *)

Module QuantumPrep.

(** The arithmetic that [normalize_features] asks of numpy's [float64]
    arrays: conversion of a Python [int], the operations of [x.dot(x)],
    [sqrt], elementwise division and the test [norm == 0]. *)
Class Arith (F : Type) : Type := {
  of_int : Z → F;
  fadd : F → F → F;
  fmul : F → F → F;
  fdiv : F → F → F;
  fsqrt : F → F;
  feq0 : F → bool
}.

(** [QuantumPrep.__init__] *)
Definition feature_keys : list string :=
  ["joins"; "subqueries"; "aggregations"; "group_by"; "having";
   "analytical_fn"; "length"].

(** The loop that fills [vector]: [features.get(key, 0)], booleans coerced. *)
Definition vector_of (features : gmap string PyVal) : list Z :=
  (λ key, coerce (default (VInt 0) (features !! key))) <$> feature_keys.

Section Normalize.
Context {F : Type} `{Arith F}.

(** [x.dot(y)], accumulated from the left. *)
Definition dot (x y : list F) : F :=
  foldl fadd (of_int 0) (zip_with fmul x y).

(** [np.linalg.norm] of a one-dimensional real array: [sqrt(x.dot(x))]. *)
Definition linalg_norm (x : list F) : F := fsqrt (dot x x).

Definition normalize_features (features : gmap string PyVal) : list F :=
  let vector := of_int <$> vector_of features in
  let norm := linalg_norm vector in
  let norm := if feq0 norm then of_int 1 else norm in
  (λ x, fdiv x norm) <$> vector.

End Normalize.

(** Reading over the real numbers. *)
#[export] Instance real_arith : Arith R := {|
  of_int := IZR;
  fadd := Rplus;
  fmul := Rmult;
  fdiv := Rdiv;
  fsqrt := R_sqrt.sqrt;
  feq0 := λ x, if Req_dec_T x 0%R then true else false
|}.

(** Reading over IEEE binary64, the arithmetic of numpy's [float64]: an
    [int] is rounded to the nearest double, [==] is the IEEE comparison. *)
#[export] Instance binary64_arith : Arith float := {|
  of_int := λ z, SF2Prim (binary_normalize prec emax z 0 false);
  fadd := PrimFloat.add;
  fmul := PrimFloat.mul;
  fdiv := PrimFloat.div;
  fsqrt := PrimFloat.sqrt;
  feq0 := λ x, PrimFloat.eqb x 0%float
|}.

(** The sum of the squares of a real vector. *)
Fixpoint sumsq (v : list R) : R :=
  match v with
  | [] => 0%R
  | x :: r => (x * x + sumsq r)%R
  end.

(** The rational number that a finite double denotes. *)
Definition exact_value (x : float) : option Q :=
  match Prim2SF x with
  | S754_zero _ => Some 0%Q
  | S754_finite s m e =>
      Some (inject_Z (if s then Z.neg m else Z.pos m) * Qpower 2 e)%Q
  | _ => None
  end.

(** The exact sum of the squares of a vector of doubles. *)
Definition exact_sum_of_squares (v : list float) : option Q :=
  foldr (λ x acc, q ← exact_value x; s ← acc; Some (q * q + s)%Q) (Some 0%Q) v.

(** A record in which two counters are 1 and nothing else is set. *)
Definition two_ones : gmap string PyVal :=
  list_to_map [("joins", VInt 1); ("subqueries", VInt 1)].

End QuantumPrep.

(** ** quantum_optimizer.py *)

Module QuantumOptimizer.

(** A decimal literal of the source, read exactly. *)
Definition dec (n : Z) (d : positive) : Qc := Q2Qc (n # d).

(** *** Data *)

(** One entry of the statistics: [{'size': ..., 'selectivity': {...}}]. *)
Record TableInfo : Type := {
  size : Z;
  selectivity : gmap string Qc
}.

(** The statistics [dict], in insertion order ([list(stats.keys())] is
    the order of its keys). *)
Abbreviation TableStatistics := (list (string * TableInfo)) (only parsing).

(** [stats[table]] *)
Fixpoint table (stats : TableStatistics) (name : string) : option TableInfo :=
  match stats with
  | [] => None
  | (key, info) :: rest =>
      if bool_decide (key = name) then Some info else table rest name
  end.

(** [{'order': order, 'cost': cost}] *)
Record CostEntry : Type := {
  order : list string;
  cost : Qc
}.

(** A result distribution: a [dict] from state to weight, in its order of
    iteration. *)
Abbreviation Distribution := (list (nat * Qc)) (only parsing).

(** The list handed to [SparsePauliOp.from_list]. *)
Abbreviation Hamiltonian := (list (string * Qc)) (only parsing).

(** *** get_table_statistics

    The row counts come from the database; the selectivities are the
    constants of the source. *)
Definition get_table_statistics (count : string → Z) : TableStatistics :=
  [("customers", {| size := count "customers";
                    selectivity := <["products" := dec 1 10]>
                                     (<["orders" := dec 3 10]> ∅) |});
   ("orders", {| size := count "orders";
                 selectivity := <["products" := dec 6 10]>
                                  (<["customers" := dec 8 10]> ∅) |});
   ("products", {| size := count "products";
                   selectivity := <["orders" := dec 9 10]>
                                    (<["customers" := dec 2 10]> ∅) |})].

(** *** calculate_join_cost *)

(** The body of the loop [for i in range(1, len(join_order))]; the state
    is [(total_cost, intermediate_size)]. *)
Definition join_step (stats : TableStatistics) (join_order : list string)
    (state : option (Qc * Qc)) (i : nat) : option (Qc * Qc) :=
  '(total_cost, intermediate_size) ← state;
  current_table ← join_order !! i;
  prev_table ← join_order !! (i - 1)%nat;
  prev ← table stats prev_table;
  let sel := default (dec 1 10) (selectivity prev !! current_table) in
  current ← table stats current_table;
  let join_cost := (intermediate_size * Qc_of_Z (size current) * sel)%Qc in
  Some ((total_cost + (intermediate_size + join_cost))%Qc,
        (intermediate_size * sel)%Qc).

Definition calculate_join_cost (join_order : list string)
    (stats : TableStatistics) : option Qc :=
  if bool_decide (length join_order < 2)%nat then Some 0%Qc
  else
    first ← join_order !! 0%nat;
    info ← table stats first;
    fst <$> foldl (join_step stats join_order)
                  (Some (0%Qc, Qc_of_Z (size info)))
                  (seq 1 (length join_order - 1)).

(** The cost as the specification words it: a fold over the tables after
    the first, each with its predecessor. *)
Fixpoint cost_fold (stats : TableStatistics) (p : string) (rest : list string)
    (intermediate_size total : Qc) : option Qc :=
  match rest with
  | [] => Some total
  | t :: rest' =>
      sp ← table stats p;
      st ← table stats t;
      let sel := default (dec 1 10) (selectivity sp !! t) in
      cost_fold stats t rest' (intermediate_size * sel)%Qc
        (total + (intermediate_size
                  + intermediate_size * Qc_of_Z (size st) * sel))%Qc
  end.

Definition cost_spec (order : list string) (stats : TableStatistics) : option Qc :=
  match order with
  | [] | [_] => Some 0%Qc
  | first :: rest =>
      info ← table stats first;
      cost_fold stats first rest (Qc_of_Z (size info)) 0%Qc
  end.

(** *** itertools.permutations, in its documented (lexicographic by
    position) order *)

(** Every way of taking one element out of a list, leftmost first. *)
Fixpoint picks {A} (l : list A) : list (A * list A) :=
  match l with
  | [] => []
  | x :: r => (x, r) :: ((λ p, (p.1, x :: p.2)) <$> picks r)
  end.

Fixpoint permutations_of_length {A} (n : nat) (l : list A) : list (list A) :=
  match n with
  | O => [[]]
  | S n' =>
      p ← picks l; (p.1 ::.) <$> permutations_of_length n' (p.2)
  end.

Definition permutations {A} (l : list A) : list (list A) :=
  permutations_of_length (length l) l.

(** *** numpy *)

(** [np.argmin]: the index of the first occurrence of the least value;
    a [ValueError] on an empty sequence. *)
Fixpoint argmin_from (best_idx : nat) (best : Qc) (i : nat) (l : list Qc) : nat :=
  match l with
  | [] => best_idx
  | x :: r =>
      if bool_decide (x < best)%Qc then argmin_from i x (S i) r
      else argmin_from best_idx best (S i) r
  end.

Definition argmin (l : list Qc) : option nat :=
  match l with
  | [] => None
  | x :: r => Some (argmin_from 0 x 1 r)
  end.

(** [a] is in non-decreasing order along the indices [x] then [y]. *)
Definition cost_le (a : list Qc) (x y : nat) : Prop :=
  ∀ cx cy, a !! x = Some cx → a !! y = Some cy → (cx ≤ cy)%Qc.

(** [np.argsort] with its default [kind]: "returns the indices that would
    sort an array".  The default sort is not documented as stable, so the
    order among equal values is left to the implementation. *)
Record NumpySort : Type := {
  argsort : list Qc → list nat;
  argsort_perm : ∀ a, argsort a ≡ₚ seq 0 (length a);
  argsort_sorted : ∀ a, StronglySorted (cost_le a) (argsort a)
}.

(** [enumerate] *)
Definition enumerate {A} (l : list A) : list (nat * A) := imap pair l.

(** Two sorts that meet the contract, as orders on (index, value) pairs:
    by value with ties in ascending index order (a stable sort, as numpy's
    [kind='stable'] or an insertion sort would give), and by value with
    ties in descending index order (not stable, and still a sort). *)
Definition key_le (p q : nat * Qc) : Prop :=
  (p.2 < q.2)%Qc ∨ (p.2 = q.2 ∧ (p.1 ≤ q.1)%nat).

Definition key_le_desc (p q : nat * Qc) : Prop :=
  (p.2 < q.2)%Qc ∨ (p.2 = q.2 ∧ (q.1 ≤ p.1)%nat).

#[export] Instance key_le_dec : RelDecision key_le.
Proof. unfold key_le. solve_decision. Defined.

#[export] Instance key_le_desc_dec : RelDecision key_le_desc.
Proof. unfold key_le_desc. solve_decision. Defined.

Definition argsort_with (R : relation (nat * Qc)) `{!RelDecision R}
    (a : list Qc) : list nat :=
  (merge_sort R (enumerate a)).*1.


(** *** build_hamiltonian *)

(** The binary digits of a positive number, most significant first. *)
Fixpoint bits (p : positive) : list bool :=
  match p with
  | xH => [true]
  | xO p' => bits p' ++ [false]
  | xI p' => bits p' ++ [true]
  end.

(** [format(i, f'0{width}b')]: binary, padded with zeros on the left. *)
Definition format_bin (i width : nat) : list bool :=
  let digits := match N.of_nat i with
                | N0 => [false]
                | Npos p => bits p
                end in
  replicate (width - length digits) false ++ digits.

(** [''.join(['I' if bit == '0' else 'Z' for bit in bin_str])] *)
Definition pauli_term (i num_qubits : nat) : string :=
  String.string_of_list_ascii
    ((λ bit : bool, if bit then "Z"%char else "I"%char) <$> format_bin i num_qubits).

(** [1e6] *)
Definition penalty : Qc := dec 1000000 1.

(** [int(np.ceil(np.log2(num_states)))] is read as the exact
    [Nat.log2_up]; [np.log2(0)] is [-inf], whose conversion to [int]
    raises.  In the loop, [costs !! i] is [Some] exactly when
    [i < len(costs)]. *)
Definition build_hamiltonian (costs : list Qc) : option Hamiltonian :=
  let num_states := length costs in
  if bool_decide (num_states = 0)%nat then None
  else
    let num_qubits := Nat.log2_up num_states in
    Some ((λ i, match costs !! i with
                | Some c => (pauli_term i num_qubits, c)
                | None =>
                    (String.string_of_list_ascii (replicate num_qubits "I"%char), penalty)
                end) <$> seq 0 (2 ^ num_qubits)).

(** The bit count as the specification words it:
    [ceil(log2(max(n,1)))], at least 1. *)
Definition spec_bits (n : nat) : nat := Nat.max 1 (Nat.log2_up (Nat.max n 1)).

(** The energy table of a Hamiltonian: the coefficient of each state. *)
Definition energies (h : Hamiltonian) : list Qc := snd <$> h.

(** *** create_quantum_optimization_problem *)

(** The loop that scores every join order; the state is
    [(costs, order_mapping)]. *)
Definition score_step (stats : TableStatistics)
    (state : option (list Qc * gmap nat CostEntry))
    (item : nat * list string) : option (list Qc * gmap nat CostEntry) :=
  '(costs, order_mapping) ← state;
  c ← calculate_join_cost (item.2) stats;
  Some (costs ++ [c], <[item.1 := {| order := item.2; cost := c |}]> order_mapping).

Definition score_orders (stats : TableStatistics)
    (join_orders : list (list string)) : option (list Qc * gmap nat CostEntry) :=
  foldl (score_step stats) (Some ([], ∅)) (enumerate join_orders).

(** [{i: order_mapping[idx] for i, idx in enumerate(top_indices)}] *)
Definition remap (order_mapping : gmap nat CostEntry)
    (top_indices : list nat) : option (gmap nat CostEntry) :=
  foldl (λ acc (item : nat * nat),
           m ← acc; e ← order_mapping !! item.2; Some (<[item.1 := e]> m))
        (Some ∅) (enumerate top_indices).

(** The reduction to at most 4 candidates (lines 120-128). *)
Definition reduce (np : NumpySort) (costs : list Qc)
    (order_mapping : gmap nat CostEntry)
    : option (list Qc * gmap nat CostEntry) :=
  if bool_decide (4 < length costs)%nat then
    let top_indices := take 4 (argsort np costs) in
    reduced_costs ← mapM (λ i, costs !! i) top_indices;
    reduced_mapping ← remap order_mapping top_indices;
    Some (reduced_costs, reduced_mapping)
  else Some (costs, order_mapping).

Definition create_quantum_optimization_problem (np : NumpySort)
    (stats : TableStatistics)
    : option (Hamiltonian * gmap nat CostEntry * list Qc) :=
  let tables := fst <$> stats in
  let join_orders := permutations tables in
  '(costs, order_mapping) ← score_orders stats join_orders;
  '(reduced_costs, reduced_mapping) ← reduce np costs order_mapping;
  hamiltonian ← build_hamiltonian reduced_costs;
  Some (hamiltonian, reduced_mapping, reduced_costs).

(** *** The sampler and the backend *)

(** What an external call does: it returns, it raises, or it never
    finishes (the polling loop [while not job.done()] has no bound). *)
Inductive Reply (A : Type) : Type :=
  | Replied (a : A)
  | Threw
  | Never.
Arguments Replied {A} a.
Arguments Threw {A}.
Arguments Never {A}.

Definition reply_bind {A B} (r : Reply A) (k : A → Reply B) : Reply B :=
  match r with
  | Replied a => k a
  | Threw => Threw
  | Never => Never
  end.

(** An exception of the pure part, seen by the caller. *)
Definition of_option {A} (o : option A) : Reply A :=
  match o with
  | Some a => Replied a
  | None => Threw
  end.

Inductive Sampler : Type :=
  | SamplerV2
  | LocalSampler.

(** The fields of a [QuantumQueryOptimizer]; the backend is known by its
    name. *)
Record QuantumQueryOptimizer : Type := {
  use_real_hardware : bool;
  sampler : option Sampler;
  backend : option string
}.

(** [setup_quantum_backend]: [service] is the outcome of connecting to
    the least busy real backend (its name), [local] tells whether
    [LocalSampler] could be imported. *)
Definition setup_quantum_backend (use_real : bool) (service : option string)
    (local : bool) : option Sampler * option string :=
  let simulator := if local then (Some LocalSampler, None) else (None, None) in
  if use_real then
    match service with
    | Some name => (Some SamplerV2, Some name)
    | None => simulator
    end
  else simulator.

(** [__init__] *)
Definition new (use_real : bool) (service : option string) (local : bool)
    : QuantumQueryOptimizer :=
  let sb := setup_quantum_backend use_real service local in
  {| use_real_hardware := use_real; sampler := sb.1; backend := sb.2 |}.

(** What the quantum job measured: counts per bit string. *)
Abbreviation JobResult := (list (string * nat)) (only parsing).

(** The external quantum runtime.  [hardware_job] stands for building and
    transpiling the circuit, submitting it, polling and [job.result()];
    [qaoa] for [QAOA.compute_minimum_eigenvalue], giving the [eigenstate]
    of the result when it has one. *)
Record QuantumRuntime : Type := {
  hardware_job : Hamiltonian → Reply JobResult;
  qaoa : Hamiltonian → Reply (option Distribution)
}.

(** *** run_quantum_optimization *)

(** The classical selection of both fallback places:
    [{int(np.argmin(reduced_costs)): 1.0}], or [{0: 1.0}]. *)
Definition classical_selection (reduced_costs : option (list Qc))
    : option Distribution :=
  match reduced_costs with
  | Some costs => idx ← argmin costs; Some [(idx, 1%Qc)]
  | None => Some [(0%nat, 1%Qc)]
  end.

(** [{i: 1.0/num_states for i in range(num_states)}] *)
Definition uniform (reduced_costs : option (list Qc)) : Distribution :=
  let num_states := match reduced_costs with
                    | Some costs => length costs
                    | None => 4%nat
                    end in
  (λ i, (i, (1 / Qc_of_Z (Z.of_nat num_states))%Qc)) <$> seq 0 num_states.

(** The body of the [try]. *)
Definition attempt (self : QuantumQueryOptimizer) (rt : QuantumRuntime)
    (hamiltonian : Hamiltonian) (reduced_costs : option (list Qc))
    : Reply Distribution :=
  if use_real_hardware self && bool_decide (is_Some (backend self)) then
    match hardware_job rt hamiltonian with
    | Replied result => Replied (uniform reduced_costs)
    | Threw => Threw
    | Never => Never
    end
  else
    match qaoa rt hamiltonian with
    | Replied (Some eigenstate) => Replied eigenstate
    | Replied None => Replied (uniform reduced_costs)
    | Threw => Threw
    | Never => Never
    end.

Definition run_quantum_optimization (self : QuantumQueryOptimizer)
    (rt : QuantumRuntime) (hamiltonian : Hamiltonian)
    (reduced_costs : option (list Qc)) : Reply Distribution :=
  match sampler self with
  | None => of_option (classical_selection reduced_costs)
  | Some _ =>
      match attempt self rt hamiltonian reduced_costs with
      | Replied probabilities => Replied probabilities
      | Threw => of_option (classical_selection reduced_costs)
      | Never => Never
      end
  end.

(** *** optimize_query *)

Record Recommendation : Type := {
  join_order : list string;
  predicted_cost : Qc;
  confidence : Qc;
  all_orders : gmap nat CostEntry;
  probabilities : Distribution;
  quantum_hardware_used : bool;
  backend_name : string
}.

(** The body of the loop over [probabilities.items()]; the state is
    [(best_prob, best_order_idx)], with [None] for the index [-1]. *)
Definition scan_step (order_mapping : gmap nat CostEntry)
    (best : Qc * option nat) (item : nat * Qc) : Qc * option nat :=
  if bool_decide (best.1 < item.2)%Qc
     && bool_decide (is_Some (order_mapping !! item.1))
  then (item.2, Some item.1)
  else best.

Definition best_state (order_mapping : gmap nat CostEntry)
    (probabilities : Distribution) : Qc * option nat :=
  foldl (scan_step order_mapping) ((-1)%Qc, None) probabilities.

(** The selection step: everything of [optimize_query] after the solver
    has returned (from "Find best join order" on). *)
Definition select (self : QuantumQueryOptimizer)
    (order_mapping : gmap nat CostEntry) (costs : list Qc)
    (probabilities : Distribution) : option Recommendation :=
  let hardware :=
    use_real_hardware self && bool_decide (is_Some (backend self)) in
  match best_state order_mapping probabilities with
  | (best_prob, Some best_order_idx) =>
      entry ← order_mapping !! best_order_idx;
      Some {| join_order := order entry;
              predicted_cost := cost entry;
              confidence := best_prob;
              all_orders := order_mapping;
              probabilities := probabilities;
              quantum_hardware_used := hardware;
              backend_name := default "simulator" (backend self) |}
  | (_, None) =>
      best_classical_idx ← argmin costs;
      entry ← order_mapping !! best_classical_idx;
      Some {| join_order := order entry;
              predicted_cost := cost entry;
              confidence := dec 9 10;
              all_orders := order_mapping;
              probabilities := [(best_classical_idx, dec 9 10)];
              quantum_hardware_used := false;
              backend_name := "classical_fallback" |}
  end.

(** The solver followed by the selection, on a prepared problem. *)
Definition solve_and_select (self : QuantumQueryOptimizer)
    (rt : QuantumRuntime) (hamiltonian : Hamiltonian)
    (order_mapping : gmap nat CostEntry) (costs : list Qc)
    : Reply Recommendation :=
  reply_bind (run_quantum_optimization self rt hamiltonian (Some costs))
    (λ probabilities, of_option (select self order_mapping costs probabilities)).

(** [optimize_query] once the statistics have been gathered. *)
Definition optimize_with_stats (self : QuantumQueryOptimizer)
    (rt : QuantumRuntime) (np : NumpySort) (stats : TableStatistics)
    : Reply Recommendation :=
  reply_bind (of_option (create_quantum_optimization_problem np stats))
    (λ problem,
       let '(hamiltonian, order_mapping, costs) := problem in
       solve_and_select self rt hamiltonian order_mapping costs).

(** [optimize_query]; the query text is not looked at, [count] is the
    database. *)
Definition optimize_query (self : QuantumQueryOptimizer) (rt : QuantumRuntime)
    (np : NumpySort) (count : string → Z) : Reply Recommendation :=
  optimize_with_stats self rt np (get_table_statistics count).

(** *** The statistics of the end-to-end scenario *)

Definition scenario_stats : TableStatistics :=
  [("A", {| size := 10;
            selectivity := <["C" := dec 1 10]> (<["B" := dec 3 10]> ∅) |});
   ("B", {| size := 100;
            selectivity := <["A" := dec 8 10]> (<["C" := dec 6 10]> ∅) |});
   ("C", {| size := 5;
            selectivity := <["B" := dec 9 10]> (<["A" := dec 2 10]> ∅) |})].

(** *** Optimizers and runtimes of the examples *)

(** Real hardware asked for, the connection fails and no local sampler can
    be imported: [sampler] and [backend] are both [None]. *)
Definition no_sampler : QuantumQueryOptimizer := new true None false.

(** The simulator: a local sampler, no backend. *)
Definition simulator : QuantumQueryOptimizer := new false None true.

(** A connection to a real backend. *)
Definition on_hardware : QuantumQueryOptimizer := new true (Some "ibm_device") false.

(** A runtime in which every quantum call raises. *)
Definition raising_runtime : QuantumRuntime :=
  {| hardware_job := λ _, Threw; qaoa := λ _, Threw |}.

(** A runtime whose eigenstate gives state 0 the weight 2. *)
Definition heavy_runtime : QuantumRuntime :=
  {| hardware_job := λ _, Threw;
     qaoa := λ _, Replied (Some [(0%nat, dec 2 1)]) |}.

(** A runtime whose hardware job measures only the given bit string. *)
Definition measuring_runtime (bits : string) : QuantumRuntime :=
  {| hardware_job := λ _, Replied [(bits, 1024%nat)]; qaoa := λ _, Threw |}.

(** The selectivity that the cost model uses between [p] and [t]. *)
Definition sel (stats : TableStatistics) (p t : string) : Qc :=
  default (dec 1 10) (info ← table stats p; selectivity info !! t).

(** "All pairwise selectivities are equal." *)
Definition all_selectivities_equal (stats : TableStatistics) : Prop :=
  ∀ p t p' t', p ∈ stats.*1 → t ∈ stats.*1 → p ≠ t →
               p' ∈ stats.*1 → t' ∈ stats.*1 → p' ≠ t' →
               sel stats p t = sel stats p' t'.

(** Statistics in which [A] and [C] mirror each other around [B]. *)
Definition mirror_stats : TableStatistics :=
  [("A", {| size := 10;
            selectivity := <["C" := dec 1 10]> (<["B" := dec 3 10]> ∅) |});
   ("B", {| size := 100;
            selectivity := <["A" := dec 6 10]> (<["C" := dec 6 10]> ∅) |});
   ("C", {| size := 10;
            selectivity := <["B" := dec 3 10]> (<["A" := dec 2 10]> ∅) |})].

End QuantumOptimizer.

(** ** Conditions on table statistics *)

Module CostModel.
Import QuantumOptimizer.

(** Row counts and selectivities that are not negative. *)
Definition nonneg_info (info : TableInfo) : Prop :=
  0 ≤ size info ∧ map_Forall (λ _ s, (0 ≤ s)%Qc) (selectivity info).

Definition nonneg_stats (stats : TableStatistics) : Prop :=
  Forall (λ kv, nonneg_info kv.2) stats.

(** The same tables with the same selectivities, none of them larger in
    the first statistics than in the second. *)
Definition smaller_tables (stats1 stats2 : TableStatistics) : Prop :=
  Forall2 (λ a b, a.1 = b.1 ∧ selectivity a.2 = selectivity b.2
                  ∧ size a.2 ≤ size b.2) stats1 stats2.

(** The scenario with ten times as many rows in [B]. *)
Definition grown_stats : TableStatistics :=
  [("A", {| size := 10;
            selectivity := <["C" := dec 1 10]> (<["B" := dec 3 10]> ∅) |});
   ("B", {| size := 1000;
            selectivity := <["A" := dec 8 10]> (<["C" := dec 6 10]> ∅) |});
   ("C", {| size := 5;
            selectivity := <["B" := dec 9 10]> (<["A" := dec 2 10]> ∅) |})].

End CostModel.

(** ** The Pauli labels and the circuit *)

Module Circuit.
Import QuantumOptimizer.


(** The padding label, ['I' * num_qubits]. *)
Definition identity_label (num_qubits : nat) : string :=
  String.string_of_list_ascii (replicate num_qubits "I"%char).

(** [hamiltonian.num_qubits] of an operator made by
    [SparsePauliOp.from_list]: the length of its labels (an empty list is
    refused). *)
Definition num_qubits (h : Hamiltonian) : option nat :=
  match h with
  | [] => None
  | (label, _) :: _ => Some (String.length label)
  end.



End Circuit.

(** ** Weights of a distribution *)

Module Weights.
Import QuantumOptimizer.

(** The sum of the weights. *)
Definition total_weight (d : Distribution) : Qc :=
  foldr (λ sw acc, (sw.2 + acc)%Qc) 0%Qc d.

End Weights.

(** ** Feature extraction and capacity estimate *)

Module FeatureExtraction.
Import QueryVisualizer.

(** What the loop of [extract_features] reads of a top-level token of
    sqlparse: whether its [ttype] is [Keyword] (with [value.upper()]);
    whether it is a [Where], a [Parenthesis] (with [value.upper()]) or a
    [Function] (with [func_name], the upper-cased name or [""]); any other
    token passes through the loop untouched.  A leaf token has a [ttype] and
    is of none of the three group classes, and the three are disjoint. *)
Inductive Token : Type :=
  | Keyword (value_upper : string)
  | Where (value_upper : string)
  | Parenthesis (value_upper : string)
  | Function (func_name : string)
  | Other.

(** [needle in text] *)
Definition contains (needle text : string) : bool :=
  if String.index 0 needle text is Some _ then true else false.

Definition aggregate_names : list string := ["COUNT"; "SUM"; "AVG"; "MAX"; "MIN"].
Definition analytical_names : list string := ["RANK"; "DENSE_RANK"; "ROW_NUMBER"].

(** [features[key] += 1] *)
Definition bump (key : string) (features : gmap string PyVal)
    : option (gmap string PyVal) :=
  val ← features !! key;
  Some (<[key := VInt (coerce val + 1)]> features).

(** The body of the loop over [stmt.tokens]. *)
Definition token_step (features : option (gmap string PyVal)) (token : Token)
    : option (gmap string PyVal) :=
  features ← features;
  match token with
  | Keyword value =>
      features ← (if contains "JOIN" value then bump "joins" features
                  else Some features);
      let features := if contains "GROUP BY" value
                      then <["group_by" := VBool true]> features
                      else features in
      Some (if contains "HAVING" value
            then <["having" := VBool true]> features
            else features)
  | Where value =>
      if contains "EXISTS" value || contains "IN (" value
      then bump "subqueries" features
      else Some features
  | Parenthesis value =>
      if contains "SELECT" value then bump "subqueries" features
      else Some features
  | Function func_name =>
      if bool_decide (func_name ∈ aggregate_names)
      then bump "aggregations" features
      else if bool_decide (func_name ∈ analytical_names)
           then Some (<["analytical_fn" := VBool true]> features)
           else Some features
  | Other => Some features
  end.

(** The dictionary that [extract_features] starts from. *)
Definition initial_features (query_length : nat) : gmap string PyVal :=
  list_to_map [("joins", VInt 0); ("subqueries", VInt 0);
               ("aggregations", VInt 0); ("group_by", VBool false);
               ("having", VBool false); ("analytical_fn", VBool false);
               ("length", VInt (Z.of_nat query_length))].

(** The outcome of a method that can also answer an error record. *)
Inductive Outcome (A : Type) : Type :=
  | Returned (a : A)
  | ErrorRecord
  | Raised.
Arguments Returned {A} a.
Arguments ErrorRecord {A}.
Arguments Raised {A}.

(** [extract_features], from the statements that [sqlparse.parse] gives
    for the stripped query and from the length of the stripped query. *)
Definition extract_features (parsed : list (list Token)) (query_length : nat)
    : Outcome (gmap string PyVal) :=
  match parsed with
  | [] => ErrorRecord
  | stmt :: _ =>
      match foldl token_step (Some (initial_features query_length)) stmt with
      | Some features => Returned features
      | None => Raised
      end
  end.

(** [classify], with the extraction in place. *)
Definition classify_query (self : QueryFeatureExtractor)
    (parsed : list (list Token)) (query_length : nat) : Outcome Classified :=
  match extract_features parsed query_length with
  | Returned features =>
      match compute_complexity self features with
      | Some score =>
          Returned {| features_of := features;
                      complexity_score := score;
                      classification_of := classification self score |}
      | None => Raised
      end
  | ErrorRecord => ErrorRecord
  | Raised => Raised
  end.

(** The dictionary that [classify] returns and the user interface hands to
    [QuantumPrep]; its key [classification], a string, is read by no
    function of [QuantumPrep] and is left out. *)
Definition result_dict (c : Classified) : gmap string PyVal :=
  <["complexity_score" := VInt (complexity_score c)]> (features_of c).

(** [QuantumPrep.estimate_qubits] *)
Definition estimate_qubits (features : gmap string PyVal) : Z :=
  let score := coerce (default (VInt 0) (features !! "complexity_score")) in
  if bool_decide (score ≤ 2) then 3
  else if bool_decide (score ≤ 5) then 5
  else 7.

(** Counting the tokens that a test accepts. *)
Definition count_tokens (test : Token → bool) (stmt : list Token) : Z :=
  Z.of_nat (length (filter (λ t, test t = true) stmt)).

Definition is_join (t : Token) : bool :=
  match t with Keyword v => contains "JOIN" v | _ => false end.

Definition is_subquery (t : Token) : bool :=
  match t with
  | Where v => contains "EXISTS" v || contains "IN (" v
  | Parenthesis v => contains "SELECT" v
  | _ => false
  end.

Definition is_aggregation (t : Token) : bool :=
  match t with
  | Function name => bool_decide (name ∈ aggregate_names)
  | _ => false
  end.

Definition is_group_by (t : Token) : bool :=
  match t with Keyword v => contains "GROUP BY" v | _ => false end.

Definition is_having (t : Token) : bool :=
  match t with Keyword v => contains "HAVING" v | _ => false end.

Definition is_analytical (t : Token) : bool :=
  match t with
  | Function name =>
      negb (bool_decide (name ∈ aggregate_names))
      && bool_decide (name ∈ analytical_names)
  | _ => false
  end.

(** The features of a statement in closed form. *)
Definition features_of_tokens (stmt : list Token) (query_length : nat)
    : gmap string PyVal :=
  list_to_map [("joins", VInt (count_tokens is_join stmt));
               ("subqueries", VInt (count_tokens is_subquery stmt));
               ("aggregations", VInt (count_tokens is_aggregation stmt));
               ("group_by", VBool (existsb is_group_by stmt));
               ("having", VBool (existsb is_having stmt));
               ("analytical_fn", VBool (existsb is_analytical stmt));
               ("length", VInt (Z.of_nat query_length))].

(** A query with two joins and an aggregate. *)
Definition sample_statement : list Token :=
  [Other; Function "COUNT"; Other; Keyword "LEFT JOIN"; Other;
   Keyword "JOIN"; Other; Where "WHERE X IN (1, 2)"; Keyword "GROUP BY"].

End FeatureExtraction.

(** * Properties *)

Module QueryVisualizerFacts.
Import QueryVisualizer.

(** C9.  With the weights of [__init__], a record that has the seven
    weighted fields scores the weighted sum of the six other fields plus
    the length term, and the length term is dropped exactly when the
    (coerced) length is at most 150: it is [0] then and the length itself,
    a number above 150, otherwise.  The scenario record scores 208, which
    is classified [Complex] at threshold 4. *)
Theorem compute_complexity_length_exemption :
  (∀ (features : gmap string PyVal) (j s a g h f len : PyVal),
      features !! "joins" = Some j →
      features !! "subqueries" = Some s →
      features !! "aggregations" = Some a →
      features !! "group_by" = Some g →
      features !! "having" = Some h →
      features !! "analytical_fn" = Some f →
      features !! "length" = Some len →
      compute_complexity init features =
        Some (coerce j * 2 + coerce s * 3 + coerce a * 1 + coerce g * 1
              + coerce h * 2 + coerce f * 3
              + (if bool_decide (coerce len ≤ 150) then 0 else coerce len * 1)))
  ∧ init.(weights) !! 6%nat = Some ("length", 1)
  ∧ compute_complexity init scenario_features = Some 208
  ∧ classification init 208 = "Complex".
Proof.
  split; [|done].
  intros features j s a g h f len Hj Hs Ha Hg Hh Hf Hl.
  unfold compute_complexity, init; simpl.
  rewrite Hj; simpl. rewrite Hs; simpl. rewrite Ha; simpl.
  rewrite Hg; simpl. rewrite Hh; simpl. rewrite Hf; simpl.
  rewrite Hl; simpl.
  case_bool_decide; simpl; f_equal; lia.
Qed.

Lemma compute_complexity_length_exemption_witness :
  compute_complexity init scenario_features =
    Some (2 * 2 + 1 * 3 + 0 * 1 + 1 * 1 + 0 * 2 + 0 * 3 + 200 * 1).
Proof.
  exact (proj1 compute_complexity_length_exemption scenario_features
           (VInt 2) (VInt 1) (VInt 0) (VBool true) (VBool false)
           (VBool false) (VInt 200)
           eq_refl eq_refl eq_refl eq_refl eq_refl eq_refl eq_refl).
Defined.

End QueryVisualizerFacts.


Module JoinCostFacts.
Import QuantumOptimizer.

Lemma join_step_None stats join_order idxs :
  foldl (join_step stats join_order) None idxs = None.
Proof. induction idxs as [|i idxs IH]; simpl; auto. Qed.

(** The loop over the positions after a prefix [pre ++ [p]] is the fold over
    the remaining tables with predecessor [p]. *)
Lemma join_loop_fold stats rest : ∀ pre p inter total,
  fst <$> foldl (join_step stats (pre ++ p :: rest)) (Some (total, inter))
                (seq (S (length pre)) (length rest))
  = cost_fold stats p rest inter total.
Proof.
  induction rest as [|t rest IH]; intros pre p inter total; simpl; [done|].
  assert (Hcur : (pre ++ p :: t :: rest) !! S (length pre) = Some t).
  { rewrite (lookup_app_r pre) by lia.
    by replace (S (length pre) - length pre)%nat with 1%nat by lia. }
  assert (Hprev : (pre ++ p :: t :: rest) !! (length pre - 0)%nat = Some p).
  { rewrite (lookup_app_r pre) by lia.
    by replace (length pre - 0 - length pre)%nat with 0%nat by lia. }
  rewrite Hcur, Hprev; simpl.
  destruct (table stats p) as [sp|]; simpl; [|by rewrite join_step_None].
  destruct (table stats t) as [st|]; simpl; [|by rewrite join_step_None].
  specialize (IH (pre ++ [p]) t).
  rewrite <- (assoc_L (++)) in IH; simpl in IH.
  rewrite length_app in IH; simpl in IH.
  replace (length pre + 1)%nat with (S (length pre)) in IH by lia.
  apply IH.
Qed.

Lemma cost_fold_defined stats rest : ∀ p inter total,
  is_Some (table stats p) →
  (∀ t, t ∈ rest → is_Some (table stats t)) →
  is_Some (cost_fold stats p rest inter total).
Proof.
  induction rest as [|t rest IH]; intros p inter total [sp Hp] Hrest; simpl.
  - by eexists.
  - destruct (Hrest t) as [st Ht]; [by left|].
    rewrite Hp, Ht; simpl. apply IH; [by eexists|].
    intros t' Ht'. apply Hrest. by right.
Qed.

Lemma calculate_join_cost_eq_fold (join_order : list string)
    (stats : TableStatistics) :
  calculate_join_cost join_order stats = cost_spec join_order stats.
Proof.
  unfold calculate_join_cost, cost_spec.
  destruct join_order as [|first [|t rest]]; try done.
  rewrite bool_decide_eq_false_2 by (simpl; lia).
  change ((first :: t :: rest) !! 0%nat) with (Some first).
  cbn [mbind option_bind].
  destruct (table stats first) as [info|]; [|done].
  exact (join_loop_fold stats (t :: rest) [] first _ _).
Qed.

Lemma calculate_join_cost_defined (join_order : list string)
    (stats : TableStatistics) :
  (∀ t, t ∈ join_order → is_Some (table stats t)) →
  is_Some (calculate_join_cost join_order stats).
Proof.
  intros Hin. rewrite calculate_join_cost_eq_fold. unfold cost_spec.
  destruct join_order as [|first [|t rest]]; try by eexists.
  destruct (Hin first) as [info Hfirst]; [by left|].
  rewrite Hfirst; simpl.
  apply (cost_fold_defined stats (t :: rest) first); [by eexists|].
  intros t' Ht'. apply Hin. by right.
Qed.

(** C5.  [calculate_join_cost] returns 0 on an order of fewer than two
    tables; on every order it is the fold of the specification (first
    table's size as the running intermediate size, then for each later
    table [t] after [p] the total grows by
    [intermediate + intermediate * size t * sel p t] and the intermediate
    size is multiplied by [sel p t], with [sel] defaulting to 1/10); and it
    yields a value whenever every table of the order has statistics.  Being
    a function of [(order, stats)], it is deterministic. *)
Theorem calculate_join_cost_is_fold (join_order : list string)
    (stats : TableStatistics) :
  ((length join_order < 2)%nat → calculate_join_cost join_order stats = Some 0%Qc)
  ∧ calculate_join_cost join_order stats = cost_spec join_order stats
  ∧ ((∀ t, t ∈ join_order → is_Some (table stats t)) →
     is_Some (calculate_join_cost join_order stats)).
Proof.
  split; [|split].
  - intros Hlen. unfold calculate_join_cost.
    by rewrite bool_decide_eq_true_2.
  - destruct join_order as [|first rest]; [done|].
    destruct rest as [|t rest]; [done|].
    unfold calculate_join_cost.
    rewrite bool_decide_eq_false_2 by (simpl; lia).
    change ((first :: t :: rest) !! 0%nat) with (Some first).
    cbn [mbind option_bind cost_spec].
    destruct (table stats first) as [info|]; [|done].
    exact (join_loop_fold stats (t :: rest) [] first _ _).
  - apply calculate_join_cost_defined.
Qed.

Lemma calculate_join_cost_is_fold_witness :
  calculate_join_cost ["A"] scenario_stats = Some 0%Qc
  ∧ is_Some (calculate_join_cost ["C"; "A"; "B"] scenario_stats).
Proof.
  split.
  - apply (proj1 (calculate_join_cost_is_fold ["A"] scenario_stats)).
    simpl; lia.
  - apply (proj2 (proj2 (calculate_join_cost_is_fold ["C"; "A"; "B"] scenario_stats))).
    intros t Ht. rewrite !elem_of_cons, elem_of_nil in Ht.
    destruct Ht as [->|[->|[->|[]]]]; by eexists.
Defined.

End JoinCostFacts.

Module OrderSensitivityFacts.
Import QuantumOptimizer.

(** C8, as stated, fails: in [mirror_stats] the selectivities are not all
    equal (A→C is 1/10, C→A is 2/10), yet the two different orderings
    A,B,C and C,B,A of the same three tables cost the same. *)
Lemma distinct_orders_same_cost :
  length mirror_stats = 3%nat
  ∧ ¬ all_selectivities_equal mirror_stats
  ∧ ["A"; "B"; "C"] ∈ permutations mirror_stats.*1
  ∧ ["C"; "B"; "A"] ∈ permutations mirror_stats.*1
  ∧ ["A"; "B"; "C"] ≠ ["C"; "B"; "A"]
  ∧ calculate_join_cost ["A"; "B"; "C"] mirror_stats = Some (dec 331 1)
  ∧ calculate_join_cost ["C"; "B"; "A"] mirror_stats = Some (dec 331 1).
Proof.
  split; [done|]. split.
  { intros Heq.
    specialize (Heq "A" "C" "C" "A").
    assert (Hin : ∀ x, x ∈ ["A"; "B"; "C"] → x ∈ mirror_stats.*1) by done.
    assert (Hne : sel mirror_stats "A" "C" ≠ sel mirror_stats "C" "A").
    { apply (bool_decide_unpack _). by vm_compute. }
    apply Hne, Heq; try (apply Hin; set_solver); done. }
  split; [vm_compute; set_solver|].
  split; [vm_compute; set_solver|].
  split; [done|].
  split; (apply (bool_decide_unpack _); by vm_compute).
Qed.

(** C8, amended.  The cost is sensitive to the order: for the statistics of
    the end-to-end scenario the six orderings of the three tables are scored
    with six pairwise different costs (so no two different orderings tie),
    the cheapest being C,A,B. *)
Theorem scenario_costs_pairwise_distinct :
  let orders := permutations scenario_stats.*1 in
  let costs := (λ o, calculate_join_cost o scenario_stats) <$> orders in
  length orders = 6%nat
  ∧ NoDup orders
  ∧ Forall is_Some costs
  ∧ NoDup costs
  ∧ calculate_join_cost ["C"; "A"; "B"] scenario_stats = Some (dec 46 1)
  ∧ calculate_join_cost ["A"; "B"; "C"] scenario_stats
    ≠ calculate_join_cost ["C"; "B"; "A"] scenario_stats.
Proof.
  cbv zeta.
  split; [done|].
  split; [apply (bool_decide_unpack _); by vm_compute|].
  split; [apply (bool_decide_unpack _); by vm_compute|].
  split; [apply (bool_decide_unpack _); by vm_compute|].
  split; apply (bool_decide_unpack _); by vm_compute.
Qed.

End OrderSensitivityFacts.

Module EncoderFacts.
Import QuantumOptimizer.
Local Open Scope nat_scope.

Lemma le_pow2_log2_up n : 0 < n → n ≤ 2 ^ Nat.log2_up n.
Proof. intros Hn. by apply Nat.log2_log2_up_spec. Qed.

Lemma energies_lookup costs h i :
  build_hamiltonian costs = Some h →
  i < 2 ^ Nat.log2_up (length costs) →
  energies h !! i = Some (default penalty (costs !! i)).
Proof.
  unfold build_hamiltonian, energies. case_bool_decide; [done|].
  intros [= <-] Hi.
  rewrite !list_lookup_fmap, lookup_seq_lt by done. simpl.
  by destruct (costs !! i).
Qed.

(** C2, as stated, fails on a single cost: the code computes
    [ceil(log2 1) = 0] bits, with no minimum, and builds a table with the
    one state 0; the bit count of the specification is 1, with a second state
    carrying the penalty. *)
Lemma single_cost_has_no_padding :
  [dec 5 1] ≠ []
  ∧ energies <$> build_hamiltonian [dec 5 1] = Some [dec 5 1]
  ∧ Nat.log2_up (length [dec 5 1]) = 0
  ∧ spec_bits (length [dec 5 1]) = 1
  ∧ ¬ (∃ h, build_hamiltonian [dec 5 1] = Some h
            ∧ length (energies h) = 2 ^ spec_bits (length [dec 5 1])).
Proof.
  repeat split; try done.
  intros (h & Hh & Hlen). by injection Hh as <-.
Qed.

(** C2, amended.  For a non-empty list of [n] costs, [build_hamiltonian]
    uses [b = ceil(log2 n)] bits, which is the specified count (at least 1)
    exactly when [n ≥ 2] and is 0 when [n = 1].  The table has an energy for
    each of the [2^b] states, [n ≤ 2^b]; state [i < n] has energy
    [costs[i]], state [i ≥ n] has the penalty 1e6; and when every cost is
    below 1e6, every padding entry is strictly above every real entry. *)
Theorem build_hamiltonian_energies (costs : list Qc) :
  costs ≠ [] →
  ∃ h, build_hamiltonian costs = Some h
    ∧ let n := length costs in
      let b := Nat.log2_up n in
      length (energies h) = 2 ^ b
      ∧ n ≤ 2 ^ b
      ∧ (2 ≤ n → b = spec_bits n)
      ∧ (n = 1 → b = 0)
      ∧ (∀ i c, costs !! i = Some c → energies h !! i = Some c)
      ∧ (∀ i, n ≤ i < 2 ^ b → energies h !! i = Some penalty)
      ∧ (Forall (λ c, (c < penalty)%Qc) costs →
         ∀ i j ci cj, i < n → n ≤ j →
           energies h !! i = Some ci → energies h !! j = Some cj →
           (ci < cj)%Qc).
Proof.
  intros Hne.
  assert (Hn : 0 < length costs) by (destruct costs; [done|simpl; lia]).
  destruct (build_hamiltonian costs) as [h|] eqn:Hh; cycle 1.
  { unfold build_hamiltonian in Hh. case_bool_decide; [lia|done]. }
  exists h. split; [done|]. cbv zeta.
  pose proof (le_pow2_log2_up _ Hn) as Hpow.
  assert (Hreal : ∀ i c, costs !! i = Some c → energies h !! i = Some c).
  { intros i c Hi. pose proof (lookup_lt_Some _ _ _ Hi).
    rewrite (energies_lookup costs h i) by (done || lia). by rewrite Hi. }
  assert (Hpad : ∀ i, length costs ≤ i < 2 ^ Nat.log2_up (length costs) →
                      energies h !! i = Some penalty).
  { intros i [Hlo Hhi]. rewrite (energies_lookup costs h i) by done.
    by rewrite (lookup_ge_None_2 costs i). }
  repeat split; try done.
  - unfold build_hamiltonian, energies in *. case_bool_decide; [done|].
    injection Hh as <-. by rewrite !length_fmap, length_seq.
  - intros H2. unfold spec_bits.
    rewrite (Nat.max_l (length costs) 1) by lia.
    assert (0 < Nat.log2_up (length costs)) by (apply Nat.log2_up_pos; lia).
    lia.
  - by intros ->.
  - intros Hall i j ci cj Hi Hj Hci Hcj.
    destruct (lookup_lt_is_Some_2 costs i Hi) as [c Hc].
    rewrite (Hreal _ _ Hc) in Hci. injection Hci as <-.
    assert (j < 2 ^ Nat.log2_up (length costs)).
    { apply lookup_lt_Some in Hcj. unfold build_hamiltonian, energies in *.
      case_bool_decide; [done|]. injection Hh as <-.
      by rewrite !length_fmap, length_seq in Hcj. }
    rewrite Hpad in Hcj by lia. injection Hcj as <-.
    rewrite Forall_forall in Hall. apply Hall.
    by eapply list_elem_of_lookup_2.
Qed.

Lemma build_hamiltonian_energies_witness :
  ∃ h, build_hamiltonian [dec 3 1; dec 1 1; dec 2 1] = Some h
       ∧ length (energies h) = 4
       ∧ energies h !! 3 = Some penalty.
Proof.
  destruct (build_hamiltonian_energies [dec 3 1; dec 1 1; dec 2 1])
    as (h & Hh & Hlen & _ & _ & _ & _ & Hpad & _); [done|].
  exists h. split; [done|]. split; [exact Hlen|].
  apply Hpad. simpl. lia.
Defined.

End EncoderFacts.

Module QuantumPrepFacts.
Import QuantumPrep.

Lemma foldl_Rplus_sumsq v : ∀ a,
  foldl Rplus a (zip_with Rmult v v) = (a + sumsq v)%R.
Proof.
  induction v as [|x v IH]; intros a; simpl; [lra|].
  rewrite IH. lra.
Qed.

Lemma dot_sumsq (v : list R) : dot v v = sumsq v.
Proof. unfold dot. rewrite foldl_Rplus_sumsq. simpl. lra. Qed.

Lemma sumsq_nonneg v : (0 <= sumsq v)%R.
Proof.
  induction v as [|x v IH]; simpl; [lra|].
  pose proof (Rle_0_sqr x) as Hx. unfold Rsqr in Hx. lra.
Qed.

Lemma sumsq_zero v : sumsq v = 0%R → Forall (λ x, x = 0%R) v.
Proof.
  induction v as [|x v IH]; simpl; intros Hs; [constructor|].
  pose proof (Rle_0_sqr x) as Hx. unfold Rsqr in Hx.
  pose proof (sumsq_nonneg v) as Hv.
  assert (Hxx : (x * x = 0)%R) by lra.
  constructor; [|apply IH; lra].
  by destruct (Rmult_integral _ _ Hxx).
Qed.

Lemma sumsq_scale v n :
  n ≠ 0%R → sumsq ((λ x, x / n)%R <$> v) = (sumsq v / (n * n))%R.
Proof.
  intros Hn. induction v as [|x v IH].
  - simpl. unfold Rdiv. lra.
  - rewrite fmap_cons. cbn [sumsq]. rewrite IH. by field.
Qed.

Lemma vector_of_length features : length (vector_of features) = 7%nat.
Proof. done. Qed.

Lemma all_zero_vector (zs : list Z) :
  length zs = 7%nat → Forall (λ z, z = 0) zs → zs = replicate 7 0.
Proof.
  intros Hlen Hall.
  do 7 (destruct zs as [|? zs]; [done|]). destruct zs; [|done].
  repeat match goal with
         | H : Forall _ (_ :: _) |- _ => inversion H; clear H; subst
         end.
  done.
Qed.

Lemma sumsq_IZR_zero (zs : list Z) :
  sumsq (IZR <$> zs) = 0%R → Forall (λ z, z = 0) zs.
Proof.
  intros Hs. apply sumsq_zero in Hs.
  induction zs as [|z zs IH]; [constructor|].
  inversion Hs as [|? ? Hz Hzs]; subst.
  constructor; [by apply eq_IZR_R0|by apply IH].
Qed.

(** C7, as stated, fails in the arithmetic the code runs in.  For the
    record with [joins = 1] and [subqueries = 1] (not all zero) the
    binary64 result is [x, x, 0, 0, 0, 0, 0] with [x] the double nearest
    to [1/sqrt 2]; the exact sum of its squares, [2 * x * x], is strictly
    below 1, and its norm computed in binary64 is [0.99999999999999989],
    not [1.0]. *)
Lemma two_ones_norm_not_one :
  vector_of two_ones = [1; 1; 0; 0; 0; 0; 0]
  ∧ ¬ Forall (λ z, z = 0) (vector_of two_ones)
  ∧ normalize_features (F:=float) two_ones
    = [0x1.6a09e667f3bccp-1; 0x1.6a09e667f3bccp-1; 0; 0; 0; 0; 0]%float
  ∧ linalg_norm (normalize_features (F:=float) two_ones)
    = 0x1.fffffffffffffp-1%float
  ∧ PrimFloat.eqb (linalg_norm (normalize_features (F:=float) two_ones)) 1 = false
  ∧ ∃ q, exact_sum_of_squares (normalize_features (F:=float) two_ones) = Some q
         ∧ (q < 1)%Q.
Proof.
  split; [done|].
  split; [by inversion 1|].
  split; [by vm_compute|].
  split; [by vm_compute|].
  split; [by vm_compute|].
  eexists. split; [vm_compute; reflexivity|]. by vm_compute.
Qed.

(** C7, amended.  [normalize_features] returns a vector of length 7 (one
    entry per key of [feature_keys], in that order) whatever arithmetic it
    runs in.  When every coerced value is 0 the norm is 0, it is replaced by
    1, and the result is the zero vector, over the reals and in binary64
    alike.  Otherwise, over the reals, the Euclidean norm of the result is
    exactly 1. *)
Theorem normalize_features_unit_norm (features : gmap string PyVal) :
  (∀ (F : Type) (A : Arith F),
     length (normalize_features (F:=F) features) = 7%nat)
  ∧ (Forall (λ z, z = 0) (vector_of features) →
       normalize_features (F:=R) features = replicate 7 0%R
       ∧ normalize_features (F:=float) features = replicate 7 0%float)
  ∧ (¬ Forall (λ z, z = 0) (vector_of features) →
       linalg_norm (normalize_features (F:=R) features) = 1%R).
Proof.
  split; [|split].
  - intros F A. unfold normalize_features.
    by rewrite !length_fmap, vector_of_length.
  - intros Hall.
    apply all_zero_vector in Hall; [|apply vector_of_length].
    unfold normalize_features. rewrite Hall. split; [|by vm_compute].
    unfold linalg_norm. rewrite dot_sumsq.
    assert (Hs : sumsq (of_int <$> replicate 7 0) = 0%R) by (simpl; lra).
    change (@fsqrt R real_arith) with R_sqrt.sqrt.
    rewrite Hs, sqrt_0. simpl.
    destruct (Req_dec_T 0 0); [|done].
    simpl. by rewrite !Rdiv_0_l.
  - intros Hnz. unfold normalize_features, linalg_norm. cbv zeta.
    change (@fsqrt R real_arith) with R_sqrt.sqrt.
    change (@fdiv R real_arith) with Rdiv.
    set (v := (of_int <$> vector_of features) : list R).
    rewrite (dot_sumsq v).
    assert (Hpos : (0 < sumsq v)%R).
    { destruct (sumsq_nonneg v) as [Hlt|Heq]; [done|].
      exfalso. apply Hnz. apply sumsq_IZR_zero. by symmetry. }
    pose proof (sqrt_lt_R0 _ Hpos) as Hn.
    assert (Hfeq : feq0 (R_sqrt.sqrt (sumsq v)) = false).
    { cbn [feq0 real_arith].
      destruct (Req_dec_T _ _) as [Heq|]; [|done].
      rewrite Heq in Hn. lra. }
    rewrite Hfeq, dot_sumsq, sumsq_scale by lra.
    rewrite sqrt_sqrt by lra.
    replace (sumsq v / sumsq v)%R with 1%R by (field; lra).
    apply sqrt_1.
Qed.

Lemma normalize_features_unit_norm_witness :
  linalg_norm (normalize_features (F:=R) two_ones) = 1%R
  ∧ normalize_features (F:=float) ∅ = replicate 7 0%float.
Proof.
  split.
  - apply (proj2 (proj2 (normalize_features_unit_norm two_ones))).
    by inversion 1.
  - apply (proj1 (proj2 (normalize_features_unit_norm ∅))).
    by repeat constructor.
Defined.

End QuantumPrepFacts.

Module NumpyFacts.
Import QuantumOptimizer.
Local Open Scope nat_scope.

Create HintDb qc_order.
#[export] Hint Resolve Qclt_le_weak Qcle_refl : qc_order.

Lemma Qc_lt_le_lt (a b c : Qc) : (a < b)%Qc → (b ≤ c)%Qc → (a < c)%Qc.
Proof. apply Qclt_le_trans. Qed.

Lemma Qc_nlt_le (a b : Qc) : ¬ (a < b)%Qc → (b ≤ a)%Qc.
Proof. apply Qcnot_lt_le. Qed.

#[export] Hint Resolve Qc_nlt_le : qc_order.

(** What the scan of [np.argmin] returns, from a current best value
    [best] held at [best_idx], over the values [l] sitting at the positions
    [i], [i+1], ...: either nothing in [l] is below [best], or the position
    of the first least value of [l], which is below [best]. *)
Lemma argmin_from_spec l : ∀ best_idx best i,
  (argmin_from best_idx best i l = best_idx
   ∧ ∀ j c, l !! j = Some c → (best ≤ c)%Qc)
  ∨ ∃ k c, argmin_from best_idx best i l = i + k
           ∧ l !! k = Some c ∧ (c < best)%Qc
           ∧ ∀ j c', l !! j = Some c' →
               (c ≤ c')%Qc ∧ (j < k → (c < c')%Qc).
Proof.
  induction l as [|x l IH]; intros best_idx best i; simpl.
  { left. split; [done|]. intros j c Hj. by rewrite lookup_nil in Hj. }
  case_bool_decide as Hlt.
  - right. destruct (IH i x (S i)) as [[Hr Hall]|(k & c & Hr & Hk & Hc & Hmin)].
    + exists 0, x. rewrite Hr. split; [lia|]. split; [done|]. split; [done|].
      intros [|j] c' Hj; simpl in Hj.
      * injection Hj as <-. split; [auto with qc_order|lia].
      * split; [by eapply Hall|lia].
    + exists (S k), c. rewrite Hr. split; [lia|]. split; [done|].
      split; [by etrans|].
      intros [|j] c' Hj; simpl in Hj.
      * injection Hj as <-. split; [auto with qc_order|done].
      * destruct (Hmin j c' Hj) as [Hle Hfirst]. split; [done|].
        intros ?. apply Hfirst. lia.
  - destruct (IH best_idx best (S i)) as [[Hr Hall]|(k & c & Hr & Hk & Hc & Hmin)].
    + left. split; [done|]. intros [|j] c Hj; simpl in Hj.
      * injection Hj as <-. auto with qc_order.
      * by eapply Hall.
    + right. exists (S k), c. rewrite Hr. split; [lia|]. split; [done|].
      split; [done|].
      assert (Hcx : (c < x)%Qc) by (eapply Qc_lt_le_lt; eauto with qc_order).
      intros [|j] c' Hj; simpl in Hj.
      * injection Hj as <-. split; [auto with qc_order|done].
      * destruct (Hmin j c' Hj) as [Hle Hfirst]. split; [done|].
        intros ?. apply Hfirst. lia.
Qed.

(** [np.argmin] of a non-empty sequence: the index of a least value, and
    the first such index. *)
Lemma argmin_spec (l : list Qc) :
  l ≠ [] →
  ∃ idx c, argmin l = Some idx ∧ l !! idx = Some c
           ∧ ∀ j c', l !! j = Some c' →
               (c ≤ c')%Qc ∧ (j < idx → (c < c')%Qc).
Proof.
  destruct l as [|x l]; [done|]. intros _. unfold argmin.
  destruct (argmin_from_spec l 0 x 1) as [[Hr Hall]|(k & c & Hr & Hk & Hc & Hmin)].
  - exists 0, x. rewrite Hr. split; [done|]. split; [done|].
    intros [|j] c' Hj; simpl in Hj.
    + injection Hj as <-. split; [auto with qc_order|lia].
    + split; [by eapply Hall|lia].
  - exists (S k), c. rewrite Hr. split; [done|]. split; [done|].
    intros [|j] c' Hj; simpl in Hj.
    + injection Hj as <-. split; [auto with qc_order|done].
    + destruct (Hmin j c' Hj) as [Hle Hfirst]. split; [done|].
      intros ?. apply Hfirst. lia.
Qed.

Lemma enumerate_indices {A} (a : list A) : (enumerate a).*1 = seq 0 (length a).
Proof.
  apply list_eq. intros i. unfold enumerate.
  rewrite list_lookup_fmap, list_lookup_imap.
  destruct (a !! i) as [x|] eqn:Hi; simpl.
  - by rewrite lookup_seq_lt by (by eapply lookup_lt_Some).
  - rewrite lookup_seq_ge; [done|]. by apply lookup_ge_None.
Qed.

Lemma elem_of_enumerate {A} (a : list A) i x :
  (i, x) ∈ enumerate a ↔ a !! i = Some x.
Proof.
  unfold enumerate. rewrite elem_of_lookup_imap. split.
  - by intros (j & y & [= -> ->] & Hj).
  - intros Hi. by exists i, x.
Qed.

Lemma StronglySorted_fmap_elem {A B} (R1 : relation A) (R2 : relation B)
    (f : A → B) (l : list A) :
  (∀ x y, x ∈ l → y ∈ l → R1 x y → R2 (f x) (f y)) →
  StronglySorted R1 l → StronglySorted R2 (f <$> l).
Proof.
  intros Himp Hs. induction Hs as [|x l Hs IH Hall]; simpl; constructor.
  - apply IH. intros y z Hy Hz. apply Himp; by right.
  - rewrite Forall_fmap. rewrite Forall_forall in Hall |- *.
    intros y Hy. apply Himp; [by left|by right|by apply Hall].
Qed.

(** Two elements of a strongly sorted list are related in their order of
    appearance. *)
Lemma StronglySorted_lookup {A} (R : relation A) (l : list A) i j x y :
  StronglySorted R l → i < j → l !! i = Some x → l !! j = Some y → R x y.
Proof.
  intros Hs. revert i j. induction Hs as [|z l Hs IH Hall]; intros i j Hij Hi Hj.
  - by destruct i.
  - destruct j as [|j]; [lia|]. destruct i as [|i]; simpl in *.
    + injection Hi as <-. rewrite Forall_forall in Hall.
      apply Hall. by eapply list_elem_of_lookup_2.
    + apply (IH i j); [lia|done..].
Qed.

Section sort_by_key.
Context (R : relation (nat * Qc)) `{!RelDecision R}.
Context `{!Transitive R, !Total R}.
Context (R_cost : ∀ p q, R p q → (p.2 ≤ q.2)%Qc).

Lemma argsort_with_perm a : argsort_with R a ≡ₚ seq 0 (length a).
Proof.
  unfold argsort_with.
  by rewrite merge_sort_Permutation, enumerate_indices.
Qed.

Lemma argsort_with_sorted a : StronglySorted (cost_le a) (argsort_with R a).
Proof.
  unfold argsort_with.
  apply (StronglySorted_fmap_elem R); [|by apply StronglySorted_merge_sort].
  intros [i c] [j d] Hi Hj HR cx cy Hcx Hcy; simpl in *.
  rewrite merge_sort_Permutation in Hi, Hj.
  apply elem_of_enumerate in Hi, Hj.
  rewrite Hi in Hcx. rewrite Hj in Hcy.
  injection Hcx as <-. injection Hcy as <-.
  by apply (R_cost _ _ HR).
Qed.

End sort_by_key.

#[export] Instance key_le_trans : Transitive key_le.
Proof.
  intros [i a] [j b] [k c]; unfold key_le; simpl.
  intros [Hab|[-> Hij]] [Hbc|[-> Hjk]].
  - left. by etrans.
  - by left.
  - by left.
  - right. split; [done|lia].
Qed.

#[export] Instance key_le_total : Total key_le.
Proof.
  intros [i a] [j b]; unfold key_le; simpl.
  destruct (Qc_dec a b) as [[Hlt|Hgt]| ->]; [by left; left|by right; left|].
  destruct (Nat.le_ge_cases i j); [left|right]; by right.
Qed.

#[export] Instance key_le_desc_trans : Transitive key_le_desc.
Proof.
  intros [i a] [j b] [k c]; unfold key_le_desc; simpl.
  intros [Hab|[-> Hij]] [Hbc|[-> Hjk]].
  - left. by etrans.
  - by left.
  - by left.
  - right. split; [done|lia].
Qed.

#[export] Instance key_le_desc_total : Total key_le_desc.
Proof.
  intros [i a] [j b]; unfold key_le_desc; simpl.
  destruct (Qc_dec a b) as [[Hlt|Hgt]| ->]; [by left; left|by right; left|].
  destruct (Nat.le_ge_cases i j); [right|left]; by right.
Qed.

Lemma key_le_cost p q : key_le p q → (p.2 ≤ q.2)%Qc.
Proof. intros [?|[-> _]]; auto with qc_order. Qed.

Lemma key_le_desc_cost p q : key_le_desc p q → (p.2 ≤ q.2)%Qc.
Proof. intros [?|[-> _]]; auto with qc_order. Qed.

(** The stable sort, as an implementation of [np.argsort]. *)
Definition stable_sort : NumpySort := {|
  argsort := argsort_with key_le;
  argsort_perm := argsort_with_perm key_le;
  argsort_sorted := argsort_with_sorted key_le key_le_cost
|}.

(** The sort that puts equal values in descending index order. *)
Definition descending_ties_sort : NumpySort := {|
  argsort := argsort_with key_le_desc;
  argsort_perm := argsort_with_perm key_le_desc;
  argsort_sorted := argsort_with_sorted key_le_desc key_le_desc_cost
|}.


End NumpyFacts.

Module SelectionFacts.
Import QuantumOptimizer NumpyFacts.
Local Open Scope nat_scope.

(** The scan over a distribution, started from [(b0, i0)]: either no entry
    replaced the start, and every entry for a known candidate weighs at most
    [b0]; or the result is the first entry of greatest weight among the
    entries for known candidates, and that weight exceeds [b0]. *)
Lemma scan_spec (om : gmap nat CostEntry) (l : Distribution) : ∀ b0 i0,
  (foldl (scan_step om) (b0, i0) l = (b0, i0)
   ∧ ∀ j s w, l !! j = Some (s, w) → is_Some (om !! s) → (w ≤ b0)%Qc)
  ∨ ∃ k s bp, foldl (scan_step om) (b0, i0) l = (bp, Some s)
      ∧ l !! k = Some (s, bp) ∧ is_Some (om !! s) ∧ (b0 < bp)%Qc
      ∧ ∀ j s' w', l !! j = Some (s', w') → is_Some (om !! s') →
          (w' ≤ bp)%Qc ∧ (j < k → (w' < bp)%Qc).
Proof.
  induction l as [|[s0 w0] l IH]; intros b0 i0; simpl.
  { left. split; [done|]. intros j s w Hj. by destruct j. }
  destruct (decide (b0 < w0)%Qc) as [Hlt|Hnlt];
    [destruct (decide (is_Some (om !! s0))) as [Hin|Hnin]|].
  - assert (Hstep : scan_step om (b0, i0) (s0, w0) = (w0, Some s0)).
    { unfold scan_step; simpl. by rewrite !bool_decide_eq_true_2. }
    rewrite Hstep. right. destruct (IH w0 (Some s0)) as [[Hr Hall]|(k & s & bp & Hr & Hk & Hs & Hb & Hmax)].
    + exists 0, s0, w0. rewrite Hr. split; [done|]. split; [done|].
      split; [done|]. split; [done|].
      intros [|j] s' w' Hj Hs'; simpl in Hj.
      * injection Hj as <- <-. split; [auto with qc_order|lia].
      * split; [by eapply Hall|lia].
    + exists (S k), s, bp. rewrite Hr. split; [done|]. split; [done|].
      split; [done|]. split; [by etrans|].
      intros [|j] s' w' Hj Hs'; simpl in Hj.
      * injection Hj as <- <-. split; [auto with qc_order|done].
      * destruct (Hmax j s' w' Hj Hs') as [Hle Hfirst]. split; [done|].
        intros ?. apply Hfirst. lia.
  - assert (Hstep : scan_step om (b0, i0) (s0, w0) = (b0, i0)).
    { unfold scan_step; simpl.
      by rewrite (bool_decide_eq_false_2 (is_Some _)), andb_false_r. }
    rewrite Hstep.
    destruct (IH b0 i0) as [[Hr Hall]|(k & s & bp & Hr & Hk & Hs & Hb & Hmax)].
    + left. split; [done|]. intros [|j] s w Hj Hs; simpl in Hj.
      * by injection Hj as <- <-.
      * by eapply Hall.
    + right. exists (S k), s, bp. rewrite Hr. split; [done|]. split; [done|].
      split; [done|]. split; [done|].
      intros [|j] s' w' Hj Hs'; simpl in Hj.
      * by injection Hj as <- <-.
      * destruct (Hmax j s' w' Hj Hs') as [Hle Hfirst]. split; [done|].
        intros ?. apply Hfirst. lia.
  - assert (Hstep : scan_step om (b0, i0) (s0, w0) = (b0, i0)).
    { unfold scan_step; simpl.
      by rewrite (bool_decide_eq_false_2 (b0 < w0)%Qc). }
    rewrite Hstep.
    destruct (IH b0 i0) as [[Hr Hall]|(k & s & bp & Hr & Hk & Hs & Hb & Hmax)].
    + left. split; [done|]. intros [|j] s w Hj Hs; simpl in Hj.
      * injection Hj as <- <-. auto with qc_order.
      * by eapply Hall.
    + right. exists (S k), s, bp. rewrite Hr. split; [done|]. split; [done|].
      split; [done|]. split; [done|].
      assert (Hw0 : (w0 < bp)%Qc).
      { eapply Qcle_lt_trans; [|exact Hb]. auto with qc_order. }
      intros [|j] s' w' Hj Hs'; simpl in Hj.
      * injection Hj as <- <-. split; [auto with qc_order|done].
      * destruct (Hmax j s' w' Hj Hs') as [Hle Hfirst]. split; [done|].
        intros ?. apply Hfirst. lia.
Qed.

Lemma best_state_spec (om : gmap nat CostEntry) (probs : Distribution) :
  (best_state om probs = ((-1)%Qc, None)
   ∧ ∀ j s w, probs !! j = Some (s, w) → is_Some (om !! s) → (w ≤ -1)%Qc)
  ∨ ∃ k s bp, best_state om probs = (bp, Some s)
      ∧ probs !! k = Some (s, bp) ∧ is_Some (om !! s) ∧ (-1 < bp)%Qc
      ∧ ∀ j s' w', probs !! j = Some (s', w') → is_Some (om !! s') →
          (w' ≤ bp)%Qc ∧ (j < k → (w' < bp)%Qc).
Proof. apply scan_spec. Qed.

(** The selection step returns whenever there is a candidate for every
    index of a non-empty cost list. *)
Lemma select_total self (om : gmap nat CostEntry) costs probs :
  costs ≠ [] →
  (∀ i, i < length costs → is_Some (om !! i)) →
  is_Some (select self om costs probs).
Proof.
  intros Hne Hom. unfold select.
  destruct (best_state_spec om probs)
    as [[-> _]|(k & s & bp & -> & _ & [e He] & _)].
  - destruct (argmin_spec costs Hne) as (idx & c & -> & Hc & _). simpl.
    destruct (Hom idx) as [e ->]; [by eapply lookup_lt_Some|].
    by eexists.
  - rewrite He. by eexists.
Qed.

(** C4, as stated, fails: weights are only required to be non-negative,
    and the winning weight is copied into the confidence unchanged.  On
    the scenario, a solver whose eigenstate gives state 0 the weight 2 leads
    to a recommendation with confidence 2. *)
Lemma confidence_above_one :
  Forall (λ sw : nat * Qc, (0 ≤ sw.2)%Qc) [(0, dec 2 1)]
  ∧ ∃ r, optimize_with_stats simulator heavy_runtime stable_sort scenario_stats
           = Replied r
         ∧ probabilities r = [(0, dec 2 1)]
         ∧ confidence r = dec 2 1
         ∧ (1 < confidence r)%Qc
         ∧ backend_name r = "simulator".
Proof.
  split; [by repeat constructor|].
  eexists. split; [vm_compute; reflexivity|].
  repeat split; by vm_compute.
Qed.

(** C4, amended.  When every weight of the distribution lies in [0,1], the
    recommendation returned by the selection step has its confidence in
    [0,1]: it is either the fallback with confidence 9/10, or from the
    solver, the confidence being the weight of the first entry of greatest
    weight among the entries for known candidates.  The step does return
    whenever the candidates are indexed as the (non-empty) costs are. *)
Theorem confidence_in_unit_interval self (om : gmap nat CostEntry)
    (costs : list Qc) (probs : Distribution) :
  Forall (λ sw : nat * Qc, (0 ≤ sw.2)%Qc ∧ (sw.2 ≤ 1)%Qc) probs →
  (∀ r, select self om costs probs = Some r →
     ((0 ≤ confidence r)%Qc ∧ (confidence r ≤ 1)%Qc)
     ∧ ((confidence r = dec 9 10 ∧ backend_name r = "classical_fallback")
        ∨ ∃ k s, probs !! k = Some (s, confidence r)
            ∧ is_Some (om !! s)
            ∧ ∀ j s' w', probs !! j = Some (s', w') → is_Some (om !! s') →
                (w' ≤ confidence r)%Qc ∧ (j < k → (w' < confidence r)%Qc)))
  ∧ (costs ≠ [] → (∀ i, i < length costs → is_Some (om !! i)) →
     is_Some (select self om costs probs)).
Proof.
  intros Hw. split; [|by apply select_total].
  intros r Hr. unfold select in Hr.
  destruct (best_state_spec om probs)
    as [[Hb _]|(k & s & bp & Hb & Hk & [e He] & _ & Hmax)];
    rewrite Hb in Hr.
  - destruct (argmin costs) as [idx|]; [|done]. simpl in Hr.
    destruct (om !! idx) as [e|]; [|done]. injection Hr as <-. simpl.
    split; [|by left].
    split; apply (bool_decide_unpack _); by vm_compute.
  - rewrite He in Hr. injection Hr as <-. simpl.
    rewrite Forall_forall in Hw.
    destruct (Hw (s, bp)) as [H0 H1]; [by eapply list_elem_of_lookup_2|].
    split; [done|]. right. exists k, s. by eauto.
Qed.

Lemma confidence_in_unit_interval_witness :
  ∃ r, select simulator (map_seq 0 [{| order := ["A"; "B"]; cost := dec 310 1 |}])
         [dec 310 1] [(0, dec 1 2)] = Some r
       ∧ (0 ≤ confidence r)%Qc ∧ (confidence r ≤ 1)%Qc.
Proof.
  destruct (confidence_in_unit_interval simulator
              (map_seq 0 [{| order := ["A"; "B"]; cost := dec 310 1 |}])
              [dec 310 1] [(0, dec 1 2)]) as [Hinv Htotal].
  { repeat constructor; simpl; apply (bool_decide_unpack _); by vm_compute. }
  destruct Htotal as [r Hr]; [done| |].
  { intros i Hi. rewrite lookup_map_seq_0. by apply lookup_lt_is_Some. }
  exists r. split; [done|]. by apply Hinv.
Defined.

Lemma best_state_point (om : gmap nat CostEntry) idx :
  is_Some (om !! idx) → best_state om [(idx, 1%Qc)] = (1%Qc, Some idx).
Proof.
  intros Hin. unfold best_state. cbn [foldl]. unfold scan_step.
  cbn [fst snd].
  rewrite (bool_decide_eq_true_2 (is_Some _)) by done.
  by rewrite bool_decide_eq_true_2.
Qed.




Lemma uniform_Some (costs : list Qc) :
  uniform (Some costs)
  = (λ i, (i, (1 / Qc_of_Z (Z.of_nat (length costs)))%Qc)) <$> seq 0 (length costs).
Proof. done. Qed.

Lemma uniform_lookup (costs : list Qc) i :
  i < length costs →
  uniform (Some costs) !! i
  = Some (i, (1 / Qc_of_Z (Z.of_nat (length costs)))%Qc).
Proof.
  intros Hi. by rewrite uniform_Some, list_lookup_fmap, lookup_seq_lt.
Qed.

Lemma uniform_lookup_inv (costs : list Qc) k s w :
  uniform (Some costs) !! k = Some (s, w) →
  s = k ∧ w = (1 / Qc_of_Z (Z.of_nat (length costs)))%Qc ∧ k < length costs.
Proof.
  rewrite uniform_Some, list_lookup_fmap. intros Hk.
  destruct (seq 0 (length costs) !! k) as [i|] eqn:Hi; [|done].
  apply lookup_seq in Hi as [-> ?]. by injection Hk as <- <-.
Qed.

Lemma uniform_weight_pos n : 0 < n → (-1 < 1 / Qc_of_Z (Z.of_nat n))%Qc.
Proof.
  intros Hn. trans 0%Qc; [done|].
  unfold Qcdiv. rewrite Qcmult_1_l. apply Qcinv_pos.
  rewrite <- Z2Qc_inj_0. apply (proj1 (Z2Qc_inj_lt 0 (Z.of_nat n))). lia.
Qed.

(** On the uniform distribution the scan stops at state 0. *)
Lemma best_state_uniform (om : gmap nat CostEntry) (costs : list Qc) :
  costs ≠ [] → is_Some (om !! 0) →
  best_state om (uniform (Some costs))
  = ((1 / Qc_of_Z (Z.of_nat (length costs)))%Qc, Some 0).
Proof.
  intros Hne H0.
  assert (Hn : 0 < length costs) by (destruct costs; [done|simpl; lia]).
  pose proof (uniform_lookup costs 0 Hn) as Hfirst.
  destruct (best_state_spec om (uniform (Some costs)))
    as [[_ Hall]|(k & s & bp & -> & Hk & _ & _ & Hmax)].
  - exfalso. specialize (Hall _ _ _ Hfirst H0).
    apply Qcle_not_lt in Hall. by apply Hall, uniform_weight_pos.
  - apply uniform_lookup_inv in Hk as (-> & -> & Hk).
    destruct k as [|k]; [done|]. exfalso.
    destruct (Hmax _ _ _ Hfirst H0) as [_ Hlt].
    by apply (Qclt_not_eq _ _ (Hlt ltac:(lia))).
Qed.

(** C3.  In a run that takes the real-hardware branch (a sampler, real
    hardware asked for, a backend) and whose quantum job completes, the
    distribution returned is the uniform one, [1/num_states] for each of the
    [num_states] reduced candidates; what the job measured is not looked at.
    Hence two such runs that differ only in what was measured return the
    same distribution and the same recommendation: the candidate at index 0
    with confidence [1/num_states]. *)
Theorem hardware_branch_is_uniform self (rt1 rt2 : QuantumRuntime)
    (h : Hamiltonian) (costs : list Qc) (result1 result2 : JobResult) :
  is_Some (sampler self) →
  use_real_hardware self = true →
  is_Some (backend self) →
  hardware_job rt1 h = Replied result1 →
  hardware_job rt2 h = Replied result2 →
  (∀ reduced_costs,
     run_quantum_optimization self rt1 h reduced_costs
     = Replied (uniform reduced_costs)
     ∧ run_quantum_optimization self rt2 h reduced_costs
       = run_quantum_optimization self rt1 h reduced_costs)
  ∧ length (uniform (Some costs)) = length costs
  ∧ (∀ i, i < length costs →
       uniform (Some costs) !! i
       = Some (i, (1 / Qc_of_Z (Z.of_nat (length costs)))%Qc))
  ∧ (∀ om, solve_and_select self rt2 h om costs = solve_and_select self rt1 h om costs)
  ∧ (∀ np stats om,
       create_quantum_optimization_problem np stats = Some (h, om, costs) →
       optimize_with_stats self rt2 np stats = optimize_with_stats self rt1 np stats)
  ∧ (∀ om e, costs ≠ [] → om !! 0 = Some e →
       solve_and_select self rt1 h om costs
       = Replied {| join_order := order e;
                    predicted_cost := cost e;
                    confidence := (1 / Qc_of_Z (Z.of_nat (length costs)))%Qc;
                    all_orders := om;
                    probabilities := uniform (Some costs);
                    quantum_hardware_used := true;
                    backend_name := default "simulator" (backend self) |}).
Proof.
  intros [smp Hsmp] Hreal Hback H1 H2.
  assert (Hrun : ∀ rt result reduced_costs, hardware_job rt h = Replied result →
            run_quantum_optimization self rt h reduced_costs
            = Replied (uniform reduced_costs)).
  { intros rt result reduced_costs Hjob. unfold run_quantum_optimization, attempt.
    rewrite Hsmp, Hreal, bool_decide_eq_true_2 by done. simpl.
    by rewrite Hjob. }
  pose proof (Hrun rt1 result1 (Some costs) H1) as Hrun1.
  pose proof (Hrun rt2 result2 (Some costs) H2) as Hrun2.
  split.
  { intros reduced_costs.
    by rewrite (Hrun rt1 result1 _ H1), (Hrun rt2 result2 _ H2). }
  split; [by rewrite uniform_Some, length_fmap, length_seq|].
  split; [apply uniform_lookup|].
  assert (Hsel : ∀ om, solve_and_select self rt2 h om costs
                       = solve_and_select self rt1 h om costs).
  { intros om. unfold solve_and_select. by rewrite Hrun1, Hrun2. }
  split; [done|]. split.
  - intros np stats om Hcreate. unfold optimize_with_stats.
    rewrite Hcreate. simpl. apply Hsel.
  - intros om e Hne H0. unfold solve_and_select. rewrite Hrun1. simpl.
    unfold select. rewrite best_state_uniform by (done || by eexists).
    rewrite H0. simpl. by rewrite Hreal, bool_decide_eq_true_2.
Qed.

Lemma hardware_branch_is_uniform_witness :
  run_quantum_optimization on_hardware (measuring_runtime "00") []
    (Some [dec 46 1; dec 106 1; dec 322 1; dec 991 2])
  = Replied (uniform (Some [dec 46 1; dec 106 1; dec 322 1; dec 991 2]))
  ∧ run_quantum_optimization on_hardware (measuring_runtime "11") []
      (Some [dec 46 1; dec 106 1; dec 322 1; dec 991 2])
    = run_quantum_optimization on_hardware (measuring_runtime "00") []
        (Some [dec 46 1; dec 106 1; dec 322 1; dec 991 2]).
Proof.
  destruct (hardware_branch_is_uniform on_hardware
              (measuring_runtime "00") (measuring_runtime "11") []
              [dec 46 1; dec 106 1; dec 322 1; dec 991 2]
              [("00", 1024)] [("11", 1024)])
    as (Hrun & _).
  - by eexists.
  - done.
  - by eexists.
  - done.
  - done.
  - exact (Hrun (Some [dec 46 1; dec 106 1; dec 322 1; dec 991 2])).
Defined.

End SelectionFacts.

Module ReductionFacts.
Import QuantumOptimizer NumpyFacts.
Local Open Scope nat_scope.

(** The dictionary comprehension over [enumerate(top_indices)]: position
    [i] of the new mapping is the old entry of the [i]-th kept index. *)
Lemma remap_lookup (om : gmap nat CostEntry) (top : list nat) :
  Forall (λ idx, is_Some (om !! idx)) top →
  ∃ rm, remap om top = Some rm ∧ ∀ i, rm !! i = top !! i ≫= (om !!.).
Proof.
  induction top as [|x top IH] using rev_ind; intros Hall.
  { exists ∅. split; [done|]. intros i. by rewrite lookup_empty. }
  apply Forall_app in Hall as [Htop Hx].
  destruct (IH Htop) as (rm & Hrm & Hlook).
  apply Forall_singleton in Hx as [e He].
  exists (<[length top := e]> rm). split.
  - unfold remap, enumerate in *. rewrite imap_app, foldl_app, Hrm. simpl.
    rewrite Nat.add_0_r, He. done.
  - intros i. destruct (decide (i = length top)) as [->|Hne].
    + rewrite lookup_insert_eq, lookup_app_r by lia.
      by rewrite Nat.sub_diag; simpl.
    + rewrite lookup_insert_ne, Hlook by done.
      destruct (decide (i < length top)).
      * by rewrite lookup_app_l.
      * rewrite (lookup_ge_None_2 top), (lookup_ge_None_2 (top ++ [x])); [done|..].
        -- rewrite length_app. simpl. lia.
        -- lia.
Qed.

Lemma mapM_lookup {A B} (f : A → option B) (l : list A) (k : list B) :
  mapM f l = Some k → ∀ i, k !! i = l !! i ≫= f.
Proof.
  intros Hk%mapM_Some_1. induction Hk as [|x y l k Hxy Hk IH]; intros i.
  - by destruct i.
  - destruct i as [|i]; simpl; [done|apply IH].
Qed.

(** What the reduction does when there are more than four candidates.
    [kept] are the original indices that survive, in their new order. *)
Lemma reduce_spec (np : NumpySort) (costs : list Qc) (om : gmap nat CostEntry) :
  (∀ i, cost <$> om !! i = costs !! i) →
  4 < length costs →
  ∃ rc rm rest,
    reduce np costs om = Some (rc, rm)
    ∧ argsort np costs = take 4 (argsort np costs) ++ rest
    ∧ length (take 4 (argsort np costs)) = 4
    ∧ length rc = 4
    ∧ (∀ i, rc !! i = take 4 (argsort np costs) !! i ≫= (costs !!.))
    ∧ (∀ i, rm !! i = take 4 (argsort np costs) !! i ≫= (om !!.))
    ∧ (∀ i, cost <$> rm !! i = rc !! i).
Proof.
  intros Hom Hlen.
  pose proof (argsort_perm np costs) as Hperm.
  set (top := take 4 (argsort np costs)).
  assert (Hsorted_len : length (argsort np costs) = length costs).
  { by rewrite Hperm, length_seq. }
  assert (Htop_len : length top = 4).
  { unfold top. rewrite length_take_le; lia. }
  assert (Hrange : ∀ k, k ∈ top → k < length costs).
  { intros k Hk. apply (subseteq_take 4) in Hk.
    rewrite Hperm, elem_of_seq in Hk. lia. }
  assert (Hcosts : ∀ k, k ∈ top → is_Some (costs !! k)).
  { intros k Hk. apply lookup_lt_is_Some. by apply Hrange. }
  assert (Hentries : ∀ k, k ∈ top → is_Some (om !! k)).
  { intros k Hk. destruct (Hcosts k Hk) as [c Hc].
    specialize (Hom k). rewrite Hc in Hom.
    destruct (om !! k); [by eexists|done]. }
  destruct (mapM_is_Some_2 (λ i, costs !! i) top) as [rc Hrc].
  { apply Forall_forall. intros k Hk. by apply Hcosts. }
  destruct (remap_lookup om top) as (rm & Hrm & Hrm_look).
  { apply Forall_forall. intros k Hk. by apply Hentries. }
  exists rc, rm, (drop 4 (argsort np costs)).
  split; [|split; [symmetry; apply take_drop|split; [done|split; [|split; [|split]]]]].
  - unfold reduce. rewrite bool_decide_eq_true_2 by done. fold top.
    by rewrite Hrc; simpl; rewrite Hrm.
  - apply length_mapM in Hrc. lia.
  - by apply mapM_lookup.
  - done.
  - intros i. rewrite Hrm_look, (mapM_lookup _ _ _ Hrc).
    destruct (top !! i) as [k|]; simpl; [apply Hom|done].
Qed.

(** The scoring loop keys the candidates as it numbers the costs. *)
Lemma score_orders_aligned (stats : TableStatistics) (orders : list (list string)) :
  ∀ costs om, score_orders stats orders = Some (costs, om) →
    length costs = length orders
    ∧ (∀ i, cost <$> om !! i = costs !! i)
    ∧ (∀ i, order <$> om !! i = orders !! i)
    ∧ (∀ i o, orders !! i = Some o → calculate_join_cost o stats = costs !! i).
Proof.
  induction orders as [|o orders IH] using rev_ind; intros costs om Hs.
  { injection Hs as <- <-. split; [done|].
    split; [intros i; by rewrite lookup_empty|].
    split; [intros i; by rewrite lookup_empty|].
    intros i o Hi. by destruct i. }
  unfold score_orders, enumerate in Hs.
  rewrite imap_app, foldl_app in Hs. simpl in Hs.
  fold (enumerate orders) in Hs. fold (score_orders stats orders) in Hs.
  destruct (score_orders stats orders) as [[costs' om']|]; [|done].
  destruct (IH costs' om' eq_refl) as (Hlen & Hcost & Horder & Hcalc).
  simpl in Hs. rewrite Nat.add_0_r in Hs.
  destruct (calculate_join_cost o stats) as [c|] eqn:Hc; [|done].
  injection Hs as <- <-.
  split; [rewrite !length_app; simpl; lia|].
  split; [|split].
  - intros i. destruct (decide (i = length orders)) as [->|Hne].
    + rewrite lookup_insert_eq, lookup_app_r by lia.
      by rewrite Hlen, Nat.sub_diag.
    + rewrite lookup_insert_ne, Hcost by done.
      destruct (decide (i < length costs')).
      * by rewrite lookup_app_l.
      * rewrite (lookup_ge_None_2 costs'), (lookup_ge_None_2 (costs' ++ [c]));
          [done|rewrite length_app; simpl; lia|lia].
  - intros i. destruct (decide (i = length orders)) as [->|Hne].
    + rewrite lookup_insert_eq, lookup_app_r by lia.
      by rewrite Nat.sub_diag.
    + rewrite lookup_insert_ne, Horder by done.
      destruct (decide (i < length orders)).
      * by rewrite lookup_app_l.
      * rewrite (lookup_ge_None_2 orders), (lookup_ge_None_2 (orders ++ [o]));
          [done|rewrite length_app; simpl; lia|lia].
  - intros i o' Hi. destruct (decide (i < length orders)).
    + rewrite lookup_app_l in Hi by done.
      rewrite lookup_app_l by lia. by apply Hcalc.
    + rewrite lookup_app_r in Hi by lia.
      assert (i = length orders) as ->.
      { apply lookup_lt_Some in Hi. simpl in Hi. lia. }
      rewrite Nat.sub_diag in Hi. injection Hi as <-.
      by rewrite lookup_app_r, Hlen, Nat.sub_diag by lia.
Qed.

(** A kept index beats every index that is not kept. *)
Lemma kept_below_discarded (np : NumpySort) (costs : list Qc) k j ck cj :
  k ∈ take 4 (argsort np costs) → j ∉ take 4 (argsort np costs) →
  costs !! k = Some ck → costs !! j = Some cj → (ck ≤ cj)%Qc.
Proof.
  intros Hk Hj Hck Hcj.
  pose proof (argsort_sorted np costs) as Hs.
  rewrite <- (take_drop 4 (argsort np costs)) in Hs.
  apply StronglySorted_app in Hs as (Hcross & _ & _).
  apply (Hcross k j); [done| |done..].
  assert (Hin : j ∈ argsort np costs).
  { rewrite (argsort_perm np costs), elem_of_seq.
    apply lookup_lt_Some in Hcj. lia. }
  rewrite <- (take_drop 4 (argsort np costs)), elem_of_app in Hin.
  by destruct Hin.
Qed.




(** C10.  Whenever there are more than four candidates, the reduced
    mapping lists its candidates in non-decreasing cost order of the new
    indices, and so does the reduced cost list; the candidate at the new
    index 0 has the least cost of all the candidates enumerated. *)
Theorem reduced_mapping_sorted (np : NumpySort) (costs : list Qc)
    (om : gmap nat CostEntry) :
  (∀ i, cost <$> om !! i = costs !! i) →
  4 < length costs →
  ∃ rc rm, reduce np costs om = Some (rc, rm)
    ∧ (∀ i j ei ej, i < j → rm !! i = Some ei → rm !! j = Some ej →
         (cost ei ≤ cost ej)%Qc)
    ∧ (∀ i j ci cj, i < j → rc !! i = Some ci → rc !! j = Some cj →
         (ci ≤ cj)%Qc)
    ∧ ∃ e0, rm !! 0 = Some e0
        ∧ ∀ k e, om !! k = Some e → (cost e0 ≤ cost e)%Qc.
Proof.
  intros Hom Hlen.
  destruct (reduce_spec np costs om Hom Hlen)
    as (rc & rm & rest & Hred & Hsplit & Hklen & Hrclen & Hrc & Hrm & Halign).
  exists rc, rm. split; [done|].
  pose proof (argsort_sorted np costs) as Hsorted.
  pose proof (argsort_perm np costs) as Hperm.
  assert (Hrc_sorted : ∀ i j ci cj, i < j →
            rc !! i = Some ci → rc !! j = Some cj → (ci ≤ cj)%Qc).
  { intros i j ci cj Hij Hi Hj. rewrite Hrc in Hi, Hj.
    destruct (take 4 (argsort np costs) !! i) as [ki|] eqn:Hki; [|done].
    destruct (take 4 (argsort np costs) !! j) as [kj|] eqn:Hkj; [|done].
    simpl in Hi, Hj.
    apply lookup_take_Some in Hki as [Hki _].
    apply lookup_take_Some in Hkj as [Hkj _].
    by apply (StronglySorted_lookup _ _ i j ki kj Hsorted Hij Hki Hkj). }
  split; [|split; [done|]].
  - intros i j ei ej Hij Hi Hj.
    apply (Hrc_sorted i j); [done|..]; rewrite <- Halign.
    + by rewrite Hi.
    + by rewrite Hj.
  - assert (H0 : is_Some (rc !! 0)) by (apply lookup_lt_is_Some; lia).
    destruct H0 as [c0 Hc0].
    pose proof (Halign 0) as Ha. rewrite Hc0 in Ha.
    destruct (rm !! 0) as [e0|] eqn:He0; [|done].
    injection Ha as <-. exists e0. split; [done|].
    intros k e Hk.
    assert (Hck : costs !! k = Some (cost e)) by (by rewrite <- Hom, Hk).
    rewrite Hrc in Hc0.
    destruct (take 4 (argsort np costs) !! 0) as [k0|] eqn:Hk0; [|done].
    simpl in Hc0. apply lookup_take_Some in Hk0 as [Hk0 _].
    assert (Hin : k ∈ argsort np costs).
    { rewrite Hperm, elem_of_seq. apply lookup_lt_Some in Hck. lia. }
    apply list_elem_of_lookup in Hin as [p Hp].
    destruct p as [|p].
    + rewrite Hk0 in Hp. injection Hp as ->.
      rewrite Hck in Hc0. injection Hc0 as ->. auto with qc_order.
    + apply (StronglySorted_lookup _ _ 0 (S p) k0 k Hsorted); [lia|done..].
Qed.

Lemma reduced_mapping_sorted_witness :
  ∃ costs om rc rm,
    score_orders scenario_stats (permutations scenario_stats.*1) = Some (costs, om)
    ∧ reduce stable_sort costs om = Some (rc, rm)
    ∧ ∃ e0, rm !! 0 = Some e0
        ∧ ∀ k e, om !! k = Some e → (cost e0 ≤ cost e)%Qc.
Proof.
  destruct (score_orders scenario_stats (permutations scenario_stats.*1))
    as [[costs om]|] eqn:Hs; [|by vm_compute in Hs].
  destruct (score_orders_aligned _ _ _ _ Hs) as (Hlen & Halign & _).
  destruct (reduced_mapping_sorted stable_sort costs om Halign)
    as (rc & rm & Hred & _ & _ & Hmin).
  { rewrite Hlen. simpl. lia. }
  by exists costs, om, rc, rm.
Defined.

End ReductionFacts.

Module PipelineFacts.
Import QuantumOptimizer NumpyFacts JoinCostFacts ReductionFacts.
Local Open Scope nat_scope.

(** Case analysis on membership in an explicit list. *)
Ltac each_member H :=
  repeat (apply elem_of_cons in H as [->|H]);
  [..|by apply elem_of_nil in H].

(** The scoring loop succeeds when every order can be costed. *)
Lemma score_orders_total (stats : TableStatistics) (orders : list (list string)) :
  Forall (λ o, is_Some (calculate_join_cost o stats)) orders →
  is_Some (score_orders stats orders).
Proof.
  induction orders as [|o orders IH] using rev_ind; intros Hall.
  { by eexists. }
  apply Forall_app in Hall as [Horders Ho].
  apply Forall_singleton in Ho as [c Hc].
  destruct (IH Horders) as [[costs om] Hs].
  unfold score_orders, enumerate in *.
  rewrite imap_app, foldl_app, Hs. simpl. rewrite Hc. by eexists.
Qed.

(** Every problem that [create_quantum_optimization_problem] builds has a
    non-empty cost list, candidates keyed as the costs are numbered, and
    the Hamiltonian of those costs. *)
Lemma create_problem_aligned (np : NumpySort) (stats : TableStatistics) h om costs :
  create_quantum_optimization_problem np stats = Some (h, om, costs) →
  costs ≠ []
  ∧ (∀ i, cost <$> om !! i = costs !! i)
  ∧ build_hamiltonian costs = Some h.
Proof.
  unfold create_quantum_optimization_problem. intros Hc.
  destruct (score_orders stats (permutations stats.*1))
    as [[costs0 om0]|] eqn:Hs; [|done].
  simpl in Hc.
  destruct (score_orders_aligned _ _ _ _ Hs) as (_ & Halign & _).
  destruct (reduce np costs0 om0) as [[rc rm]|] eqn:Hr; [|done].
  simpl in Hc.
  destruct (build_hamiltonian rc) as [h'|] eqn:Hh; [|done].
  injection Hc as <- <- <-.
  split; [|split; [|done]].
  - intros ->. unfold build_hamiltonian in Hh. by case_bool_decide.
  - destruct (decide (4 < length costs0)) as [Hlen|Hlen].
    + destruct (reduce_spec np costs0 om0 Halign Hlen)
        as (rc' & rm' & _ & Hr' & _ & _ & _ & _ & _ & Hfinal).
      rewrite Hr in Hr'. by injection Hr' as <- <-.
    + unfold reduce in Hr. rewrite bool_decide_eq_false_2 in Hr by done.
      by injection Hr as <- <-.
Qed.

(** On the statistics that [get_table_statistics] gathers, whatever the
    row counts and whatever the sort, a problem with four candidates is
    built. *)
Lemma get_table_statistics_problem (np : NumpySort) (count : string → Z) :
  ∃ h om costs,
    create_quantum_optimization_problem np (get_table_statistics count)
    = Some (h, om, costs)
    ∧ length costs = 4.
Proof.
  unfold create_quantum_optimization_problem.
  set (stats := get_table_statistics count).
  assert (Horders : length (permutations stats.*1) = 6) by done.
  destruct (score_orders_total stats (permutations stats.*1)) as [[costs om] Hs].
  { apply Forall_forall. intros o Ho.
    change (permutations stats.*1)
      with (permutations ["customers"; "orders"; "products"]) in Ho.
    vm_compute in Ho.
    apply calculate_join_cost_defined. intros t Ht.
    each_member Ho; each_member Ht; by eexists. }
  rewrite Hs. simpl.
  destruct (score_orders_aligned _ _ _ _ Hs) as (Hlen & Halign & _).
  destruct (reduce_spec np costs om Halign)
    as (rc & rm & _ & Hr & _ & _ & Hrc & _); [lia|].
  rewrite Hr. simpl.
  destruct (build_hamiltonian rc) as [h|] eqn:Hh.
  - simpl. by exists h, rm, rc.
  - unfold build_hamiltonian in Hh. case_bool_decide; [lia|done].
Qed.

(** The whole of [optimize_query] without a sampler: for every database
    and every sort it returns a recommendation with confidence 1 whose
    source is "simulator" or the backend's name. *)
Lemma optimize_query_without_sampler self rt (np : NumpySort)
    (count : string → Z) :
  sampler self = None →
  ∃ r, optimize_query self rt np count = Replied r
       ∧ confidence r = 1%Qc
       ∧ backend_name r = default "simulator" (backend self)
       ∧ ∃ idx, probabilities r = [(idx, 1%Qc)].
Proof.
  intros Hnone.
  destruct (get_table_statistics_problem np count) as (h & om & costs & Hc & Hlen).
  destruct (create_problem_aligned _ _ _ _ _ Hc) as (Hne & Halign & _).
  destruct (argmin_spec costs Hne) as (idx & c & Hidx & Hcost & _).
  assert (Hentry : is_Some (om !! idx)).
  { specialize (Halign idx). rewrite Hcost in Halign.
    destruct (om !! idx); [by eexists|done]. }
  unfold optimize_query, optimize_with_stats. rewrite Hc. simpl.
  unfold solve_and_select, run_quantum_optimization.
  rewrite Hnone. simpl. rewrite Hidx. simpl.
  unfold select. rewrite (SelectionFacts.best_state_point om idx Hentry).
  destruct Hentry as [e ->]. simpl.
  eexists. split; [done|]. simpl. by eauto.
Qed.

End PipelineFacts.

(** * Further properties of the cost model *)

Module CostModelFacts.
Import QuantumOptimizer CostModel NumpyFacts JoinCostFacts.

Lemma table_elem (stats : TableStatistics) t info :
  table stats t = Some info → (t, info) ∈ stats.
Proof.
  induction stats as [|[k i] stats IH]; simpl; [done|].
  case_bool_decide as Hk.
  - intros [= ->]. subst. by left.
  - intros Ht. right. by apply IH.
Qed.

Lemma nonneg_table stats t info :
  nonneg_stats stats → table stats t = Some info → nonneg_info info.
Proof.
  intros Hs Ht. apply table_elem in Ht.
  unfold nonneg_stats in Hs. rewrite Forall_forall in Hs.
  by apply (Hs (t, info)).
Qed.

Lemma nonneg_sel stats p t info :
  nonneg_stats stats → table stats p = Some info →
  (0 ≤ default (dec 1 10) (selectivity info !! t))%Qc.
Proof.
  intros Hs Hp. destruct (nonneg_table _ _ _ Hs Hp) as [_ Hsel].
  destruct (selectivity info !! t) as [x|] eqn:Hx; simpl.
  - by apply (Hsel t x).
  - apply (bool_decide_unpack _). by vm_compute.
Qed.

Lemma nonneg_size stats t info :
  nonneg_stats stats → table stats t = Some info → (0 ≤ Qc_of_Z (size info))%Qc.
Proof.
  intros Hs Ht. destruct (nonneg_table _ _ _ Hs Ht) as [Hsize _].
  rewrite <- Z2Qc_inj_0. by apply (proj1 (Z2Qc_inj_le 0 (size info))).
Qed.

Lemma cost_fold_nonneg stats rest : ∀ p inter total c,
  nonneg_stats stats → (0 ≤ inter)%Qc → (0 ≤ total)%Qc →
  cost_fold stats p rest inter total = Some c → (0 ≤ c)%Qc.
Proof.
  induction rest as [|t rest IH]; intros p inter total c Hs Hi Ht; simpl.
  { by intros [= <-]. }
  destruct (table stats p) as [sp|] eqn:Hp; simpl; [|done].
  destruct (table stats t) as [st|] eqn:Htt; simpl; [|done].
  pose proof (nonneg_sel _ _ t _ Hs Hp) as Hsel.
  pose proof (nonneg_size _ _ _ Hs Htt) as Hsize.
  apply IH; [done|..].
  - by apply Qcmult_nonneg_nonneg.
  - repeat (apply Qcplus_nonneg_nonneg || apply Qcmult_nonneg_nonneg); done.
Qed.

(** X1.  With row counts and selectivities that are not negative, every
    cost that [calculate_join_cost] returns is non-negative. *)
Theorem calculate_join_cost_nonneg (join_order : list string)
    (stats : TableStatistics) (c : Qc) :
  nonneg_stats stats →
  calculate_join_cost join_order stats = Some c →
  (0 ≤ c)%Qc.
Proof.
  intros Hs. rewrite calculate_join_cost_eq_fold. unfold cost_spec.
  destruct join_order as [|first [|t rest]];
    [intros [= <-]; apply Qcle_refl..|].
  destruct (table stats first) as [info|] eqn:Hfirst;
    cbn [mbind option_bind]; [|done].
  apply cost_fold_nonneg; [done| |done].
  by eapply nonneg_size.
Qed.

Lemma scenario_stats_nonneg : nonneg_stats scenario_stats.
Proof.
  repeat constructor; simpl; try done;
    intros k x Hk; repeat (apply lookup_insert_Some in Hk as [[_ <-]|[_ Hk]];
      [apply (bool_decide_unpack _); by vm_compute|]); done.
Qed.

Lemma calculate_join_cost_nonneg_witness :
  (0 ≤ dec 46 1)%Qc.
Proof.
  apply (calculate_join_cost_nonneg ["C"; "A"; "B"] scenario_stats).
  - exact scenario_stats_nonneg.
  - apply (bool_decide_unpack _). by vm_compute.
Defined.

Lemma table_smaller (stats1 stats2 : TableStatistics) t :
  smaller_tables stats1 stats2 →
  match table stats1 t, table stats2 t with
  | Some i1, Some i2 => selectivity i1 = selectivity i2 ∧ size i1 ≤ size i2
  | None, None => True
  | _, _ => False
  end.
Proof.
  induction 1 as [|[k1 i1] [k2 i2] s1 s2 (Hk & Hsel & Hsize) _ IH]; simpl; [done|].
  simpl in Hk, Hsel, Hsize. subst k2.
  destruct (bool_decide (k1 = t)); [by split|exact IH].
Qed.

Lemma Qcmult_le_mono_both (a a' b b' : Qc) :
  (0 ≤ a)%Qc → (a ≤ a')%Qc → (0 ≤ b)%Qc → (b ≤ b')%Qc → (a * b ≤ a' * b')%Qc.
Proof.
  intros Ha Haa Hb Hbb. trans (a' * b)%Qc.
  - by apply Qcmult_le_mono_nonneg_r.
  - apply Qcmult_le_mono_nonneg_l; [by trans a|done].
Qed.

Lemma cost_fold_mono (stats1 stats2 : TableStatistics) rest :
  nonneg_stats stats1 → smaller_tables stats1 stats2 →
  ∀ p inter1 inter2 total1 total2 c1,
    (0 ≤ inter1)%Qc → (inter1 ≤ inter2)%Qc → (total1 ≤ total2)%Qc →
    cost_fold stats1 p rest inter1 total1 = Some c1 →
    ∃ c2, cost_fold stats2 p rest inter2 total2 = Some c2 ∧ (c1 ≤ c2)%Qc.
Proof.
  intros Hs Hle.
  induction rest as [|t rest IH]; intros p i1 i2 t1 t2 c1 H0 Hi Ht; simpl.
  { intros [= <-]. by exists t2. }
  pose proof (table_smaller _ _ p Hle) as Hp.
  pose proof (table_smaller _ _ t Hle) as Htt.
  destruct (table stats1 p) as [sp1|] eqn:Hp1; cbn [mbind option_bind]; [|done].
  destruct (table stats1 t) as [st1|] eqn:Ht1; cbn [mbind option_bind]; [|done].
  destruct (table stats2 p) as [sp2|]; [|done].
  destruct (table stats2 t) as [st2|]; [|done].
  cbn [mbind option_bind].
  destruct Hp as [Hsel _]. destruct Htt as [_ Hsize]. rewrite <- Hsel.
  pose proof (nonneg_sel _ _ t _ Hs Hp1) as Hs0.
  pose proof (nonneg_size _ _ _ Hs Ht1) as Hz0.
  set (s := default (dec 1 10) (selectivity sp1 !! t)) in *.
  assert (Hzz : (Qc_of_Z (size st1) ≤ Qc_of_Z (size st2))%Qc).
  { by apply (proj1 (Z2Qc_inj_le _ _)). }
  apply IH.
  - by apply Qcmult_nonneg_nonneg.
  - by apply Qcmult_le_mono_nonneg_r.
  - apply Qcplus_le_compat; [done|]. apply Qcplus_le_compat; [done|].
    apply Qcmult_le_mono_nonneg_r; [done|].
    by apply Qcmult_le_mono_both.
Qed.

(** X2.  The cost grows with the tables: when no row count or selectivity
    is negative, enlarging tables (same tables, same selectivities) never
    lowers the cost of an order, and an order that could be costed before
    can still be costed. *)
Theorem calculate_join_cost_monotone (join_order : list string)
    (stats1 stats2 : TableStatistics) (c1 : Qc) :
  nonneg_stats stats1 →
  smaller_tables stats1 stats2 →
  calculate_join_cost join_order stats1 = Some c1 →
  ∃ c2, calculate_join_cost join_order stats2 = Some c2 ∧ (c1 ≤ c2)%Qc.
Proof.
  intros Hs Hle. rewrite !calculate_join_cost_eq_fold. unfold cost_spec.
  destruct join_order as [|first [|t rest]];
    [intros [= <-]; eexists; split; [done|apply Qcle_refl]..|].
  pose proof (table_smaller _ _ first Hle) as Hfirst.
  destruct (table stats1 first) as [i1|] eqn:H1; cbn [mbind option_bind]; [|done].
  destruct (table stats2 first) as [i2|]; [|done].
  cbn [mbind option_bind]. destruct Hfirst as [_ Hsize].
  apply cost_fold_mono; [done|done| | |apply Qcle_refl].
  - by eapply nonneg_size.
  - by apply (proj1 (Z2Qc_inj_le _ _)).
Qed.

Lemma calculate_join_cost_monotone_witness :
  ∃ c2, calculate_join_cost ["A"; "B"; "C"] grown_stats = Some c2
        ∧ (dec 322 1 ≤ c2)%Qc.
Proof.
  apply (calculate_join_cost_monotone ["A"; "B"; "C"] scenario_stats grown_stats).
  - exact scenario_stats_nonneg.
  - repeat constructor; simpl; lia.
  - apply (bool_decide_unpack _). by vm_compute.
Defined.

Lemma cost_fold_Some_inv (stats : TableStatistics) rest :
  ∀ p inter total,
    rest ≠ [] →
    is_Some (cost_fold stats p rest inter total) →
    is_Some (table stats p) ∧ ∀ t, t ∈ rest → is_Some (table stats t).
Proof.
  induction rest as [|t rest IH]; intros p inter total Hne; [done|]. simpl.
  destruct (table stats p) as [sp|] eqn:Hp; cbn [mbind option_bind];
    [|by intros [? ?]].
  destruct (table stats t) as [st|] eqn:Ht; cbn [mbind option_bind];
    [|by intros [? ?]].
  intros Hsome. split; [by eexists|].
  intros t' [->|Ht']%elem_of_cons; [by eexists|].
  destruct rest as [|t2 rest]; [by apply elem_of_nil in Ht'|].
  by apply (IH t _ _ ltac:(done) Hsome).
Qed.

(** X3.  On an order of two or more tables, [calculate_join_cost] raises
    (a [KeyError]) exactly when some table of the order has no statistics:
    every table of the order is looked up, whatever the sizes are. *)
Theorem calculate_join_cost_raises_iff (join_order : list string)
    (stats : TableStatistics) :
  (2 ≤ length join_order)%nat →
  calculate_join_cost join_order stats = None
  ↔ ∃ t, t ∈ join_order ∧ table stats t = None.
Proof.
  intros Hlen. split.
  - intros Hnone.
    destruct (decide (Forall (λ t, is_Some (table stats t)) join_order))
      as [Hall|Hnot].
    + rewrite Forall_forall in Hall.
      destruct (calculate_join_cost_defined join_order stats Hall) as [c Hc].
      congruence.
    + apply not_Forall_Exists in Hnot; [|apply _].
      apply Exists_exists in Hnot as (t & Ht & Hmiss).
      exists t. split; [done|]. by apply eq_None_not_Some.
  - intros (t & Ht & Hmiss). apply eq_None_not_Some. intros Hsome.
    rewrite calculate_join_cost_eq_fold in Hsome. unfold cost_spec in Hsome.
    destruct join_order as [|first [|t2 rest]]; [simpl in Hlen; lia..|].
    destruct (table stats first) as [info|] eqn:Hfirst;
      cbn [mbind option_bind] in Hsome; [|by destruct Hsome].
    apply cost_fold_Some_inv in Hsome as [_ Hrest]; [|done].
    apply elem_of_cons in Ht as [->|Ht].
    + congruence.
    + destruct (Hrest t Ht) as [? ?]. congruence.
Qed.

Lemma calculate_join_cost_raises_iff_witness :
  calculate_join_cost ["A"; "D"; "B"] scenario_stats = None.
Proof.
  apply (calculate_join_cost_raises_iff ["A"; "D"; "B"] scenario_stats).
  - simpl. lia.
  - exists "D". split; [|done]. apply list_elem_of_lookup. by exists 1%nat.
Defined.

End CostModelFacts.

(** * Further properties of the enumeration and of the problem built *)

Module EnumerationFacts.
Import QuantumOptimizer NumpyFacts JoinCostFacts ReductionFacts PipelineFacts.
Local Open Scope nat_scope.

Lemma picks_spec {A} (l : list A) x r :
  (x, r) ∈ picks l → l ≡ₚ x :: r.
Proof.
  revert x r. induction l as [|y l IH]; intros x r; simpl.
  { by intros ?%elem_of_nil. }
  intros [[= -> ->]|Hin]%elem_of_cons; [done|].
  apply list_elem_of_fmap in Hin as ([x' r'] & [= -> ->] & Hin). simpl.
  rewrite (IH _ _ Hin). apply Permutation_swap.
Qed.

Lemma picks_elem {A} (l : list A) x :
  x ∈ l → ∃ r, (x, r) ∈ picks l.
Proof.
  induction l as [|y l IH]; [by intros ?%elem_of_nil|].
  intros [->|Hin]%elem_of_cons; simpl.
  - exists l. by left.
  - destruct (IH Hin) as [r Hr]. exists (y :: r). right.
    apply list_elem_of_fmap. by exists (x, r).
Qed.

Lemma length_picks {A} (l : list A) : length (picks l) = length l.
Proof. induction l as [|y l IH]; simpl; [done|]. by rewrite length_fmap, IH. Qed.

Lemma length_bind_const {A B} (f : A → list B) (l : list A) k :
  (∀ x, x ∈ l → length (f x) = k) → length (l ≫= f) = length l * k.
Proof.
  induction l as [|x l IH]; intros Hk; [done|].
  rewrite bind_cons, length_app, IH, Hk; [simpl; lia|by left|].
  intros y Hy. apply Hk. by right.
Qed.

Lemma length_permutations_of_length {A} n : ∀ l : list A,
  length l = n → length (permutations_of_length n l) = fact n.
Proof.
  induction n as [|n IH]; intros l Hl; simpl; [done|].
  rewrite (length_bind_const _ _ (fact n)).
  - rewrite length_picks, Hl. lia.
  - intros [x r] Hin. rewrite length_fmap. apply IH.
    apply picks_spec, Permutation_length in Hin. simpl in *. lia.
Qed.

Lemma permutations_of_length_sound {A} n : ∀ (l o : list A),
  length l = n → o ∈ permutations_of_length n l → o ≡ₚ l.
Proof.
  induction n as [|n IH]; intros l o Hl; simpl.
  - intros ->%list_elem_of_singleton. by destruct l.
  - intros ([x r] & Ho & Hin)%list_elem_of_bind.
    apply list_elem_of_fmap in Ho as (o' & -> & Ho'). simpl in *.
    pose proof (picks_spec _ _ _ Hin) as Hperm.
    rewrite Hperm. constructor. apply IH; [|done].
    apply Permutation_length in Hperm. simpl in *. lia.
Qed.

Lemma permutations_of_length_complete {A} n : ∀ (l o : list A),
  length l = n → o ≡ₚ l → o ∈ permutations_of_length n l.
Proof.
  induction n as [|n IH]; intros l o Hl Hperm; simpl.
  - destruct l; [|done]. apply Permutation_nil_r in Hperm as ->. by left.
  - destruct o as [|x o].
    { apply Permutation_length in Hperm. simpl in *. lia. }
    destruct (picks_elem l x) as [r Hr].
    { rewrite <- Hperm. by left. }
    apply list_elem_of_bind. exists (x, r). split; [|done].
    apply list_elem_of_fmap. exists o. split; [done|].
    pose proof (picks_spec _ _ _ Hr) as Hl'.
    apply IH.
    + apply Permutation_length in Hl'. simpl in *. lia.
    + rewrite Hl' in Hperm. by apply Permutation_cons_inv in Hperm.
Qed.

Lemma table_key (stats : TableStatistics) t :
  t ∈ stats.*1 → is_Some (table stats t).
Proof.
  induction stats as [|[k i] stats IH]; simpl; [by intros ?%elem_of_nil|].
  intros Hin. case_bool_decide as Hk; [by eexists|].
  apply elem_of_cons in Hin as [->|Hin]; [done|by apply IH].
Qed.

Lemma permutations_sound {A} (l o : list A) : o ∈ permutations l → o ≡ₚ l.
Proof. by apply permutations_of_length_sound. Qed.

(** The scoring loop succeeds on the permutations of the tables of any
    statistics: every table it looks up is a key. *)
Lemma enumerate_scored (stats : TableStatistics) :
  ∃ costs om,
    score_orders stats (permutations stats.*1) = Some (costs, om)
    ∧ length costs = length (permutations stats.*1)
    ∧ (∀ i, cost <$> om !! i = costs !! i)
    ∧ (∀ i, order <$> om !! i = permutations stats.*1 !! i)
    ∧ (∀ i o, permutations stats.*1 !! i = Some o →
         calculate_join_cost o stats = costs !! i).
Proof.
  destruct (score_orders_total stats (permutations stats.*1)) as [[costs om] Hs].
  { apply Forall_forall. intros o Ho.
    apply calculate_join_cost_defined. intros t Ht. apply table_key.
    by rewrite <- (permutations_sound _ _ Ho). }
  exists costs, om. split; [done|]. by apply score_orders_aligned.
Qed.

(** What an entry of the scored mapping is. *)
Lemma scored_entry (stats : TableStatistics) (costs : list Qc)
    (om : gmap nat CostEntry) (i : nat) (e : CostEntry) :
  (∀ i, cost <$> om !! i = costs !! i) →
  (∀ i, order <$> om !! i = permutations stats.*1 !! i) →
  (∀ i o, permutations stats.*1 !! i = Some o →
     calculate_join_cost o stats = costs !! i) →
  om !! i = Some e →
  order e ≡ₚ stats.*1
  ∧ calculate_join_cost (order e) stats = Some (cost e)
  ∧ costs !! i = Some (cost e).
Proof.
  intros Hcost Horder Hcalc He.
  pose proof (Horder i) as Ho. pose proof (Hcost i) as Hc.
  rewrite He in Ho, Hc. simpl in Ho, Hc. symmetry in Ho, Hc.
  split; [|split; [|done]].
  - apply permutations_sound. by eapply list_elem_of_lookup_2.
  - by rewrite (Hcalc i _ Ho).
Qed.

(** X4.  Whatever the statistics, the candidates that
    [create_quantum_optimization_problem] scores are exactly the
    permutations of the table names: there are [n!] of them, keyed
    [0..n!-1]; each is a permutation of the tables and is recorded with its
    own [calculate_join_cost]; and every permutation of the tables is among
    them.  Scoring never raises. *)
Theorem candidates_are_all_permutations (stats : TableStatistics) :
  ∃ costs om,
    score_orders stats (permutations stats.*1) = Some (costs, om)
    ∧ length costs = fact (length stats)
    ∧ (∀ i, is_Some (om !! i) ↔ i < fact (length stats))
    ∧ (∀ i e, om !! i = Some e →
         order e ≡ₚ stats.*1
         ∧ calculate_join_cost (order e) stats = Some (cost e)
         ∧ costs !! i = Some (cost e))
    ∧ (∀ o, o ≡ₚ stats.*1 → ∃ i e, om !! i = Some e ∧ order e = o).
Proof.
  destruct (enumerate_scored stats)
    as (costs & om & Hs & Hlen & Hcost & Horder & Hcalc).
  assert (Hfact : length (permutations stats.*1) = fact (length stats)).
  { unfold permutations. rewrite length_permutations_of_length by done.
    by rewrite length_fmap. }
  exists costs, om. split; [done|]. split; [lia|]. split; [|split].
  - intros i. rewrite <- Hfact, <- Hlen, <- lookup_lt_is_Some, <- Hcost.
    by rewrite fmap_is_Some.
  - intros i e He. by eapply scored_entry.
  - intros o Ho.
    assert (Hin : o ∈ permutations stats.*1).
    { by apply permutations_of_length_complete. }
    apply list_elem_of_lookup in Hin as [i Hi].
    pose proof (Horder i) as Hoi. rewrite Hi in Hoi.
    destruct (om !! i) as [e|] eqn:He; [|done].
    exists i, e. split; [done|]. by injection Hoi.
Qed.

(** The problem that [create_quantum_optimization_problem] builds, with
    [costs0] the costs of all the candidates before the reduction. *)
Lemma create_problem_spec (np : NumpySort) (stats : TableStatistics) :
  ∃ h om costs (costs0 : list Qc),
    create_quantum_optimization_problem np stats = Some (h, om, costs)
    ∧ length costs = Nat.min (fact (length stats)) 4
    ∧ (∀ i, cost <$> om !! i = costs !! i)
    ∧ (∀ i e, om !! i = Some e →
         order e ≡ₚ stats.*1
         ∧ calculate_join_cost (order e) stats = Some (cost e))
    ∧ (∀ o, o ≡ₚ stats.*1 →
         ∃ k c, costs0 !! k = Some c ∧ calculate_join_cost o stats = Some c)
    ∧ (∀ idx c, costs !! idx = Some c →
         (∀ j c', costs !! j = Some c' → (c ≤ c')%Qc) →
         ∀ k c', costs0 !! k = Some c' → (c ≤ c')%Qc)
    ∧ (4 < fact (length stats) →
       ∀ i j ci cj, i < j → costs !! i = Some ci → costs !! j = Some cj →
                    (ci ≤ cj)%Qc)
    ∧ build_hamiltonian costs = Some h.
Proof.
  destruct (enumerate_scored stats)
    as (costs0 & om0 & Hs & Hlen & Hcost & Horder & Hcalc).
  assert (Hfact : length costs0 = fact (length stats)).
  { rewrite Hlen. unfold permutations.
    rewrite length_permutations_of_length by done. by rewrite length_fmap. }
  assert (Hpos : 0 < fact (length stats)) by apply Factorial.lt_O_fact.
  assert (Hred : ∃ rc rm, reduce np costs0 om0 = Some (rc, rm)
            ∧ length rc = Nat.min (fact (length stats)) 4
            ∧ (∀ i, cost <$> rm !! i = rc !! i)
            ∧ (∀ i e, rm !! i = Some e → ∃ j, om0 !! j = Some e)
            ∧ (∀ idx c, rc !! idx = Some c →
                 (∀ j c', rc !! j = Some c' → (c ≤ c')%Qc) →
                 ∀ k c', costs0 !! k = Some c' → (c ≤ c')%Qc)
            ∧ (4 < fact (length stats) →
               ∀ i j ci cj, i < j → rc !! i = Some ci → rc !! j = Some cj →
                            (ci ≤ cj)%Qc)).
  { destruct (decide (4 < length costs0)) as [Hbig|Hsmall].
    - destruct (reduce_spec np costs0 om0 Hcost Hbig)
        as (rc & rm & _ & Hr & _ & Hklen & Hrc & Hrclook & Hrm & Halign).
      exists rc, rm. split; [done|]. split; [lia|]. split; [done|].
      split; [|split].
      + intros i e He. rewrite Hrm in He.
        destruct (take 4 (argsort np costs0) !! i) as [j|]; [|done].
        by exists j.
      + intros idx c Hidx Hmin k c' Hk.
        rewrite Hrclook in Hidx.
        destruct (take 4 (argsort np costs0) !! idx) as [kidx|] eqn:Hkidx;
          [|done].
        simpl in Hidx.
        destruct (decide (k ∈ take 4 (argsort np costs0))) as [Hin|Hout].
        * apply list_elem_of_lookup in Hin as [i Hi].
          apply (Hmin i). by rewrite Hrclook, Hi.
        * apply (kept_below_discarded np costs0 kidx k); [|done..].
          by eapply list_elem_of_lookup_2.
      + intros _ i j ci cj Hij Hi Hj. rewrite Hrclook in Hi, Hj.
        destruct (take 4 (argsort np costs0) !! i) as [ki|] eqn:Hki; [|done].
        destruct (take 4 (argsort np costs0) !! j) as [kj|] eqn:Hkj; [|done].
        simpl in Hi, Hj.
        apply lookup_take_Some in Hki as [Hki _].
        apply lookup_take_Some in Hkj as [Hkj _].
        by apply (StronglySorted_lookup _ _ i j ki kj
                    (argsort_sorted np costs0) Hij Hki Hkj).
    - exists costs0, om0. split.
      { unfold reduce. by rewrite bool_decide_eq_false_2. }
      split; [lia|]. split; [done|]. split; [|split].
      + intros i e He. by exists i.
      + intros idx c _ Hmin k c' Hk. by apply (Hmin k).
      + lia. }
  destruct Hred as (rc & rm & Hr & Hrclen & Halign & Hfrom & Hmin & Hsorted).
  destruct (build_hamiltonian rc) as [h|] eqn:Hh; cycle 1.
  { unfold build_hamiltonian in Hh. case_bool_decide; [lia|done]. }
  exists h, rm, rc, costs0. split.
  { unfold create_quantum_optimization_problem. rewrite Hs. simpl.
    rewrite Hr. simpl. by rewrite Hh. }
  split; [done|]. split; [done|]. split; [|split; [|done]].
  - intros i e He. destruct (Hfrom i e He) as [j Hj].
    destruct (scored_entry stats costs0 om0 j e Hcost Horder Hcalc Hj)
      as (Hperm & Hcalc' & _).
    by split.
  - intros o Ho.
    assert (Hin : o ∈ permutations stats.*1).
    { by apply permutations_of_length_complete. }
    apply list_elem_of_lookup in Hin as [k Hk].
    destruct (lookup_lt_is_Some_2 costs0 k) as [c Hc].
    { rewrite Hlen. by eapply lookup_lt_Some. }
    exists k, c. split; [done|]. by rewrite (Hcalc k o Hk).
Qed.

(** X5.  [create_quantum_optimization_problem] never raises, whatever the
    statistics (none at all included) and whatever the sort.  The problem it
    returns has [min(n!, 4)] candidates keyed [0 .. min(n!,4)-1]; the cost
    list, the candidate mapping and the Hamiltonian agree: candidate [i] is
    a permutation of the tables, its recorded cost is its own
    [calculate_join_cost] and is entry [i] of the cost list, from which the
    Hamiltonian is built. *)
Theorem create_problem_total (np : NumpySort) (stats : TableStatistics) :
  ∃ h om costs,
    create_quantum_optimization_problem np stats = Some (h, om, costs)
    ∧ length costs = Nat.min (fact (length stats)) 4
    ∧ (∀ i, is_Some (om !! i) ↔ i < length costs)
    ∧ (∀ i e, om !! i = Some e →
         order e ≡ₚ stats.*1
         ∧ calculate_join_cost (order e) stats = Some (cost e)
         ∧ costs !! i = Some (cost e))
    ∧ build_hamiltonian costs = Some h.
Proof.
  destruct (create_problem_spec np stats)
    as (h & om & costs & costs0 & Hc & Hlen & Halign & Hentry & _ & _ & _ & Hh).
  exists h, om, costs. split; [done|]. split; [done|].
  split; [|split; [|done]].
  - intros i. by rewrite <- lookup_lt_is_Some, <- Halign, fmap_is_Some.
  - intros i e He. destruct (Hentry i e He) as [Hperm Hcalc].
    split; [done|]. split; [done|]. by rewrite <- Halign, He.
Qed.

End EnumerationFacts.

(** * Further properties of the encoding *)

Module LabelFacts.
Import QuantumOptimizer Circuit EncoderFacts.
Local Open Scope nat_scope.

Lemma length_string_of_list (l : list ascii) :
  String.length (String.string_of_list_ascii l) = length l.
Proof. induction l as [|c l IH]; simpl; [done|]. by rewrite IH. Qed.

Lemma length_bits p : ∀ n, Pos.to_nat p < 2 ^ n → length (bits p) ≤ n.
Proof.
  induction p as [p IH|p IH|]; intros n Hp; simpl.
  - destruct n as [|n]; [simpl in Hp; lia|].
    rewrite length_app. simpl. rewrite Pos2Nat.inj_xI, Nat.pow_succ_r' in Hp.
    specialize (IH n). lia.
  - destruct n as [|n]; [simpl in Hp; lia|].
    rewrite length_app. simpl. rewrite Pos2Nat.inj_xO, Nat.pow_succ_r' in Hp.
    specialize (IH n). lia.
  - destruct n as [|n]; [simpl in Hp; lia|lia].
Qed.

Lemma length_format_bin i n :
  i < 2 ^ n → length (format_bin i n) = Nat.max 1 n.
Proof.
  intros Hi. unfold format_bin.
  destruct (N.of_nat i) as [|p] eqn:Hp.
  - rewrite length_app, length_replicate. simpl length. lia.
  - assert (Hlen : length (bits p) ≤ n).
    { apply length_bits. apply (f_equal N.to_nat) in Hp.
      rewrite Nat2N.id in Hp. by subst i. }
    assert (0 < length (bits p)) by (destruct p; simpl; rewrite ?length_app; simpl; lia).
    rewrite length_app, length_replicate. lia.
Qed.










Lemma pauli_term_length i n :
  i < 2 ^ n → String.length (pauli_term i n) = Nat.max 1 n.
Proof.
  intros Hi. unfold pauli_term.
  by rewrite length_string_of_list, length_fmap, length_format_bin.
Qed.

Lemma hamiltonian_lookup (costs : list Qc) h i :
  build_hamiltonian costs = Some h →
  i < 2 ^ Nat.log2_up (length costs) →
  h !! i = Some (match costs !! i with
                 | Some c => (pauli_term i (Nat.log2_up (length costs)), c)
                 | None => (identity_label (Nat.log2_up (length costs)), penalty)
                 end).
Proof.
  unfold build_hamiltonian. case_bool_decide; [done|].
  intros [= <-] Hi. by rewrite list_lookup_fmap, lookup_seq_lt.
Qed.

Lemma hamiltonian_length (costs : list Qc) h :
  build_hamiltonian costs = Some h →
  length h = 2 ^ Nat.log2_up (length costs).
Proof.
  unfold build_hamiltonian. case_bool_decide; [done|].
  intros [= <-]. by rewrite length_fmap, length_seq.
Qed.

Lemma labels_have_one_length_aux (costs : list Qc) (h : Hamiltonian) :
  build_hamiltonian costs = Some h →
  (∀ i label c, h !! i = Some (label, c) →
     String.length label = Nat.max 1 (Nat.log2_up (length costs)))
  ∧ num_qubits h = Some (Nat.max 1 (Nat.log2_up (length costs))).
Proof.
  intros Hh.
  assert (Hall : ∀ i label c, h !! i = Some (label, c) →
     String.length label = Nat.max 1 (Nat.log2_up (length costs))).
  { intros i label c Hi.
    pose proof (lookup_lt_Some _ _ _ Hi) as Hlt.
    rewrite (hamiltonian_length _ _ Hh) in Hlt.
    rewrite (hamiltonian_lookup _ _ _ Hh Hlt) in Hi.
    destruct (costs !! i) as [c'|] eqn:Hc; injection Hi as <- <-; simpl.
    - by apply pauli_term_length.
    - apply lookup_ge_None in Hc.
      unfold identity_label. rewrite length_string_of_list, length_replicate.
      assert (0 < Nat.log2_up (length costs)); [|lia].
      apply Nat.log2_up_pos.
      destruct (decide (length costs = 1)) as [H1|Hn1].
      { rewrite H1 in Hlt, Hc. simpl in Hlt. lia. }
      unfold build_hamiltonian in Hh.
      case_bool_decide; [done|]. lia. }
  split; [done|].
  destruct h as [|[label c] h]; simpl.
  - apply hamiltonian_length in Hh. simpl in Hh.
    pose proof (Nat.pow_nonzero 2 (Nat.log2_up (length costs))). lia.
  - f_equal. by apply (Hall 0 label c).
Qed.

(** X7.  All the labels of a Hamiltonian that [build_hamiltonian] returns
    have the same length, [max(1, ceil(log2 n))], so the list is a
    well-formed argument of [SparsePauliOp.from_list]; that length is the
    number of qubits of the operator, and the list has one term for each of
    the [2^ceil(log2 n)] states. *)
Theorem labels_have_one_length (costs : list Qc) (h : Hamiltonian) :
  build_hamiltonian costs = Some h →
  Forall (λ term, String.length term.1
                  = Nat.max 1 (Nat.log2_up (length costs))) h
  ∧ num_qubits h = Some (Nat.max 1 (Nat.log2_up (length costs)))
  ∧ length h = 2 ^ Nat.log2_up (length costs).
Proof.
  intros Hh. destruct (labels_have_one_length_aux _ _ Hh) as [Hall Hq].
  split; [|split; [done|by apply hamiltonian_length]].
  apply Forall_lookup. intros i [label c] Hi. simpl. by eapply Hall.
Qed.

Lemma labels_have_one_length_witness :
  num_qubits [("II", dec 1 1); ("IZ", dec 2 1); ("ZI", dec 3 1); ("II", penalty)]
  = Some 2.
Proof.
  apply (proj1 (proj2 (labels_have_one_length [dec 1 1; dec 2 1; dec 3 1] _ eq_refl))).
Defined.

Lemma pauli_term_zero n : 0 < n → pauli_term 0 n = identity_label n.
Proof.
  intros Hn. unfold pauli_term, identity_label, format_bin. simpl.
  f_equal. rewrite fmap_app, fmap_replicate. simpl.
  replace n with (S (n - 1)) at 2 by lia.
  by rewrite replicate_S_end.
Qed.

(** X8.  The padding states do not get a term of their own: whenever the
    table has padding (the number [n] of costs is not a power of two), the
    label written for every padding state is the all-identity label, which
    is also the label of state 0.  The list handed to
    [SparsePauliOp.from_list] thus carries the penalty 1e6 on the same Pauli
    term as the cost of candidate 0. *)
Theorem padding_shares_the_label_of_state_0 (costs : list Qc) (h : Hamiltonian)
    (j : nat) :
  build_hamiltonian costs = Some h →
  length costs ≤ j < 2 ^ Nat.log2_up (length costs) →
  ∃ c0, costs !! 0 = Some c0
        ∧ h !! 0 = Some (identity_label (Nat.log2_up (length costs)), c0)
        ∧ h !! j = Some (identity_label (Nat.log2_up (length costs)), penalty).
Proof.
  intros Hh [Hlo Hhi].
  assert (Hn : 0 < length costs).
  { unfold build_hamiltonian in Hh. case_bool_decide; [done|lia]. }
  destruct (lookup_lt_is_Some_2 costs 0 Hn) as [c0 Hc0].
  assert (Hb : 0 < Nat.log2_up (length costs)).
  { apply Nat.log2_up_pos.
    destruct (decide (length costs = 1)) as [H1|Hn1]; [|lia].
    rewrite H1 in Hhi, Hlo. simpl in Hhi. lia. }
  exists c0. split; [done|]. split.
  - rewrite (hamiltonian_lookup _ _ _ Hh) by lia.
    by rewrite Hc0, pauli_term_zero.
  - rewrite (hamiltonian_lookup _ _ _ Hh) by lia.
    by rewrite (lookup_ge_None_2 costs j).
Qed.

Lemma padding_shares_the_label_of_state_0_witness :
  ∃ c0, [dec 1 1; dec 2 1; dec 3 1] !! 0 = Some c0
        ∧ ([("II", dec 1 1); ("IZ", dec 2 1); ("ZI", dec 3 1); ("II", penalty)]
             : Hamiltonian) !! 0
          = Some (identity_label 2, c0)
        ∧ ([("II", dec 1 1); ("IZ", dec 2 1); ("ZI", dec 3 1); ("II", penalty)]
             : Hamiltonian) !! 3
          = Some (identity_label 2, penalty).
Proof.
  apply (padding_shares_the_label_of_state_0 [dec 1 1; dec 2 1; dec 3 1] _ 3 eq_refl).
  simpl. lia.
Defined.



End LabelFacts.

(** * Further properties of the solver step and of the selection *)

Module SolverFacts.
Import QuantumOptimizer Weights NumpyFacts SelectionFacts.
Local Open Scope nat_scope.

Lemma classical_selection_None (reduced_costs : option (list Qc)) :
  classical_selection reduced_costs = None ↔ reduced_costs = Some [].
Proof.
  destruct reduced_costs as [[|c costs]|]; simpl; split; try done.
Qed.

(** X10.  [run_quantum_optimization] raises in one situation only: the
    cost list is empty and the classical selection is reached (no sampler,
    or the solver raised), where [np.argmin] of an empty sequence raises.
    Without a cost list and without a sampler it answers [{0: 1.0}]. *)
Theorem run_quantum_optimization_raises_iff self rt (h : Hamiltonian)
    (reduced_costs : option (list Qc)) :
  (run_quantum_optimization self rt h reduced_costs = Threw
   ↔ reduced_costs = Some []
     ∧ (sampler self = None ∨ attempt self rt h reduced_costs = Threw))
  ∧ (sampler self = None →
     run_quantum_optimization self rt h None = Replied [(0, 1%Qc)]).
Proof.
  split.
  - unfold run_quantum_optimization.
    destruct (sampler self) as [smp|].
    + destruct (attempt self rt h reduced_costs) as [d| |] eqn:Ha.
      * split; [done|]. by intros [_ [?|?]].
      * destruct (classical_selection reduced_costs) as [d|] eqn:Hc; simpl.
        -- split; [done|]. intros [Hempty _].
           apply classical_selection_None in Hempty. congruence.
        -- apply classical_selection_None in Hc. split; [|done].
           intros _. split; [done|by right].
      * split; [done|]. by intros [_ [?|?]].
    + destruct (classical_selection reduced_costs) as [d|] eqn:Hc; simpl.
      * split; [done|]. intros [Hempty _].
        apply classical_selection_None in Hempty. congruence.
      * apply classical_selection_None in Hc. split; [|done].
        intros _. split; [done|by left].
  - intros Hnone. unfold run_quantum_optimization. by rewrite Hnone.
Qed.

Lemma run_quantum_optimization_raises_iff_witness :
  run_quantum_optimization no_sampler raising_runtime [] None
  = Replied [(0, 1%Qc)].
Proof.
  apply (proj2 (run_quantum_optimization_raises_iff no_sampler raising_runtime
                  [] None)).
  done.
Defined.

Lemma total_weight_const (w : Qc) (l : list nat) :
  total_weight ((λ i, (i, w)) <$> l) = (Qc_of_Z (Z.of_nat (length l)) * w)%Qc.
Proof.
  induction l as [|i l IH].
  - change (0%Qc = (Qc_of_Z 0 * w)%Qc). by rewrite Z2Qc_inj_0, Qcmult_0_l.
  - change (total_weight ((λ i, (i, w)) <$> i :: l))
      with (w + total_weight ((λ i, (i, w)) <$> l))%Qc.
    rewrite IH. change (length (i :: l)) with (S (length l)).
    rewrite Nat2Z.inj_succ, <- Z.add_1_r, Z2Qc_inj_add, Z2Qc_inj_1. ring.
Qed.

Lemma Qc_of_nat_pos n : 0 < n → (0 < Qc_of_Z (Z.of_nat n))%Qc.
Proof.
  intros Hn. rewrite <- Z2Qc_inj_0.
  apply (proj1 (Z2Qc_inj_lt 0 (Z.of_nat n))). lia.
Qed.

Lemma uniform_weight_le_1 n : 0 < n → (1 / Qc_of_Z (Z.of_nat n) ≤ 1)%Qc.
Proof.
  intros Hn. pose proof (Qc_of_nat_pos n Hn) as Hpos.
  apply (Qcmult_le_mono_pos_r _ _ (Qc_of_Z (Z.of_nat n)) Hpos).
  unfold Qcdiv. rewrite <- Qcmult_assoc, (Qcmult_comm (/ _)), Qcmult_inv_r.
  - rewrite !Qcmult_1_l. rewrite <- Z2Qc_inj_1.
    apply (proj1 (Z2Qc_inj_le 1 (Z.of_nat n))). lia.
  - intros Heq. apply Qclt_not_eq in Hpos. by apply Hpos.
Qed.

(** X11.  The distribution that the hardware branch (and the simulator
    branch without eigenstate) makes up is a probability distribution over
    the candidates: its states are [0..n-1] in order, each weight is
    positive and at most 1, and the weights sum to exactly 1.  On an empty
    cost list it is the empty distribution: nothing is divided by zero. *)
Theorem uniform_is_a_probability_distribution (costs : list Qc) :
  uniform (Some []) = []
  ∧ (costs ≠ [] →
     (uniform (Some costs)).*1 = seq 0 (length costs)
     ∧ Forall (λ sw : nat * Qc, (0 < sw.2)%Qc ∧ (sw.2 ≤ 1)%Qc)
              (uniform (Some costs))
     ∧ total_weight (uniform (Some costs)) = 1%Qc).
Proof.
  split; [done|]. intros Hne.
  assert (Hn : 0 < length costs) by (destruct costs; [done|simpl; lia]).
  pose proof (Qc_of_nat_pos _ Hn) as Hpos.
  rewrite uniform_Some. split; [|split].
  - rewrite <- list_fmap_compose. apply list_fmap_id.
  - apply Forall_fmap, Forall_forall. intros i _. simpl. split.
    + unfold Qcdiv. rewrite Qcmult_1_l. by apply Qcinv_pos.
    + by apply uniform_weight_le_1.
  - rewrite total_weight_const, length_seq.
    unfold Qcdiv. rewrite Qcmult_1_l. apply Qcmult_inv_r.
    intros Heq. apply Qclt_not_eq in Hpos. by apply Hpos.
Qed.

Lemma uniform_is_a_probability_distribution_witness :
  total_weight (uniform (Some [dec 46 1; dec 106 1; dec 322 1; dec 991 2])) = 1%Qc.
Proof.
  apply (proj2 (uniform_is_a_probability_distribution
                  [dec 46 1; dec 106 1; dec 322 1; dec 991 2])).
  done.
Defined.

(** X12.  The classical fallback of [optimize_query] itself: when no state
    of the distribution is both a candidate index and heavier than -1 (the
    empty distribution, states outside the candidate set), the selection
    step returns the minimum-cost candidate (the first one among equal
    costs) with confidence 0.9, source "classical_fallback", the
    probabilities [{idx: 0.9}] and [quantum_hardware_used] false, whatever
    the backend is. *)
Theorem no_known_state_falls_back self (om : gmap nat CostEntry)
    (costs : list Qc) (probs : Distribution) :
  costs ≠ [] →
  (∀ i, cost <$> om !! i = costs !! i) →
  (∀ j s w, probs !! j = Some (s, w) → om !! s = None ∨ (w ≤ -1)%Qc) →
  ∃ idx entry,
    argmin costs = Some idx
    ∧ om !! idx = Some entry
    ∧ (∀ j e, om !! j = Some e →
         (cost entry ≤ cost e)%Qc ∧ (j < idx → (cost entry < cost e)%Qc))
    ∧ select self om costs probs
      = Some {| join_order := order entry;
                predicted_cost := cost entry;
                confidence := dec 9 10;
                all_orders := om;
                probabilities := [(idx, dec 9 10)];
                quantum_hardware_used := false;
                backend_name := "classical_fallback" |}.
Proof.
  intros Hne Hom Hnone.
  destruct (argmin_spec costs Hne) as (idx & c & Hidx & Hc & Hmin).
  assert (Hentry : ∃ entry, om !! idx = Some entry ∧ cost entry = c).
  { specialize (Hom idx). rewrite Hc in Hom.
    destruct (om !! idx) as [entry|]; [|done].
    injection Hom as <-. by eexists. }
  destruct Hentry as (entry & Hentry & <-).
  exists idx, entry. split; [done|]. split; [done|]. split.
  { intros j e Hj. apply Hmin. by rewrite <- Hom, Hj. }
  unfold select.
  destruct (best_state_spec om probs)
    as [[-> _]|(k & s & bp & _ & Hk & [e He] & Hbp & _)].
  - by rewrite Hidx; simpl; rewrite Hentry.
  - exfalso. destruct (Hnone k s bp Hk) as [Hs|Hw]; [congruence|].
    by apply Qcle_not_lt in Hw.
Qed.

Lemma no_known_state_falls_back_witness :
  ∃ idx entry,
    argmin [dec 310 1; dec 46 1] = Some idx
    ∧ order entry = ["C"; "A"; "B"]
    ∧ backend_name <$>
        select on_hardware
          (map_seq 0 [{| order := ["A"; "B"; "C"]; cost := dec 310 1 |};
                      {| order := ["C"; "A"; "B"]; cost := dec 46 1 |}])
          [dec 310 1; dec 46 1] [(7, 1%Qc)]
      = Some "classical_fallback".
Proof.
  destruct (no_known_state_falls_back on_hardware
              (map_seq 0 [{| order := ["A"; "B"; "C"]; cost := dec 310 1 |};
                          {| order := ["C"; "A"; "B"]; cost := dec 46 1 |}])
              [dec 310 1; dec 46 1] [(7, 1%Qc)])
    as (idx & entry & Hidx & Hentry & _ & Hsel).
  - done.
  - intros i. by rewrite lookup_map_seq_0, <- list_lookup_fmap.
  - intros [|j] s w Hj; [|by destruct j]. injection Hj as <- <-. by left.
  - exists idx, entry. split; [done|].
    assert (idx = 1) as -> by (vm_compute in Hidx; congruence).
    split.
    + vm_compute in Hentry. by injection Hentry as <-.
    + by rewrite Hsel.
Defined.

(** X13.  Whatever the distribution, a recommendation that the selection
    step returns is one of the candidates: its order and its predicted cost
    are those of one entry of the candidate mapping, which is returned whole
    as [all_orders]; its confidence is 0.9 or one of the weights; and
    [quantum_hardware_used] is set only when real hardware was asked for and
    a backend is connected, whose name is then the source. *)
Theorem recommendation_is_a_candidate self (om : gmap nat CostEntry)
    (costs : list Qc) (probs : Distribution) (r : Recommendation) :
  select self om costs probs = Some r →
  all_orders r = om
  ∧ (∃ i e, om !! i = Some e
            ∧ join_order r = order e ∧ predicted_cost r = cost e)
  ∧ (confidence r = dec 9 10 ∨ confidence r ∈ probs.*2)
  ∧ (quantum_hardware_used r = true →
     use_real_hardware self = true ∧ backend self = Some (backend_name r)).
Proof.
  unfold select. intros Hr.
  destruct (best_state_spec om probs)
    as [[Hb _]|(k & s & bp & Hb & Hk & [e He] & _)]; rewrite Hb in Hr.
  - destruct (argmin costs) as [idx|]; [|done]. simpl in Hr.
    destruct (om !! idx) as [e|] eqn:He; [|done].
    injection Hr as <-. simpl. split; [done|].
    split; [by exists idx, e|]. split; [by left|done].
  - rewrite He in Hr. injection Hr as <-. simpl. split; [done|].
    split; [by exists s, e|]. split.
    + right. apply list_elem_of_fmap. exists (s, bp). split; [done|].
      by eapply list_elem_of_lookup_2.
    + intros [Hreal Hback]%andb_true_iff. split; [done|].
      apply bool_decide_eq_true in Hback as [name ->]. done.
Qed.

Lemma recommendation_is_a_candidate_witness :
  ∃ r, select on_hardware
         (map_seq 0 [{| order := ["A"; "B"]; cost := dec 310 1 |}])
         [dec 310 1] [(0, dec 1 2)] = Some r
       ∧ all_orders r = map_seq 0 [{| order := ["A"; "B"]; cost := dec 310 1 |}]
       ∧ backend on_hardware = Some (backend_name r).
Proof.
  destruct (select on_hardware
              (map_seq 0 [{| order := ["A"; "B"]; cost := dec 310 1 |}])
              [dec 310 1] [(0, dec 1 2)]) as [r|] eqn:Hr;
    [|by vm_compute in Hr].
  destruct (recommendation_is_a_candidate _ _ _ _ r Hr) as (Hall & _ & _ & Hhw).
  exists r. split; [done|]. split; [done|].
  apply Hhw. vm_compute in Hr. by injection Hr as <-.
Defined.

End SolverFacts.

(** * Properties of [optimize_query] as a whole *)

Module WholeProgramFacts.
Import QuantumOptimizer NumpyFacts SelectionFacts EnumerationFacts.
Local Open Scope nat_scope.

Lemma problem_nonempty (stats : TableStatistics) (costs : list Qc) :
  length costs = Nat.min (fact (length stats)) 4 → costs ≠ [].
Proof.
  intros Hlen ->. pose proof (Factorial.lt_O_fact (length stats)).
  simpl in Hlen. lia.
Qed.

Lemma aligned_is_Some (om : gmap nat CostEntry) (costs : list Qc) :
  (∀ i, cost <$> om !! i = costs !! i) →
  ∀ i, i < length costs → is_Some (om !! i).
Proof.
  intros Halign i Hi. apply lookup_lt_is_Some in Hi.
  rewrite <- Halign in Hi. by apply fmap_is_Some in Hi.
Qed.

Lemma run_fallback self rt (h : Hamiltonian) (costs : list Qc) idx :
  argmin costs = Some idx →
  sampler self = None ∨ attempt self rt h (Some costs) = Threw →
  run_quantum_optimization self rt h (Some costs) = Replied [(idx, 1%Qc)].
Proof.
  intros Hidx Hfail. unfold run_quantum_optimization.
  destruct (sampler self) as [smp|]; [|by simpl; rewrite Hidx].
  destruct Hfail as [? | ->]; [done|]. by simpl; rewrite Hidx.
Qed.



(** X15.  When the sampler is missing or the solver raises, the order that
    [optimize_query] recommends is a cheapest join order: it is a
    permutation of the tables, its predicted cost is its own
    [calculate_join_cost], and no permutation of the tables costs less (all
    the [n!] of them, not only the four that survive the reduction).  This
    holds for every sort and all statistics. *)
Theorem fallback_recommends_a_cheapest_order self rt (np : NumpySort)
    (stats : TableStatistics) :
  sampler self = None ∨ (∀ h rc, attempt self rt h rc = Threw) →
  ∃ r, optimize_with_stats self rt np stats = Replied r
       ∧ confidence r = 1%Qc
       ∧ join_order r ≡ₚ stats.*1
       ∧ calculate_join_cost (join_order r) stats = Some (predicted_cost r)
       ∧ ∀ o, o ≡ₚ stats.*1 →
           ∃ c, calculate_join_cost o stats = Some c
                ∧ (predicted_cost r ≤ c)%Qc.
Proof.
  intros Hfail.
  destruct (create_problem_spec np stats)
    as (h & om & costs & costs0 & Hc & Hlen & Halign & Hentry & Hall & Hmin & _).
  pose proof (problem_nonempty _ _ Hlen) as Hne.
  destruct (argmin_spec costs Hne) as (idx & c & Hidx & Hcidx & Hleast).
  destruct (aligned_is_Some _ _ Halign idx) as [e He].
  { exact (lookup_lt_Some costs idx c Hcidx). }
  assert (Hce : cost e = c).
  { pose proof (Halign idx) as Ha. rewrite He, Hcidx in Ha. by injection Ha. }
  assert (Hrun : run_quantum_optimization self rt h (Some costs)
                 = Replied [(idx, 1%Qc)]).
  { apply run_fallback; [done|]. destruct Hfail as [?|Hthrow]; [by left|].
    right. apply Hthrow. }
  eexists. split.
  { unfold optimize_with_stats. rewrite Hc. simpl.
    unfold solve_and_select. rewrite Hrun. simpl.
    unfold select. rewrite best_state_point by (by eexists).
    by rewrite He. }
  simpl. split; [done|].
  destruct (Hentry idx e He) as [Hperm Hcalc].
  split; [done|]. split; [done|].
  intros o Ho. destruct (Hall o Ho) as (k & c' & Hk & Hcalc').
  exists c'. split; [done|]. rewrite Hce.
  refine (Hmin idx c Hcidx _ k c' Hk).
  intros j cj Hj. by apply (Hleast j cj Hj).
Qed.

Lemma fallback_recommends_a_cheapest_order_witness :
  ∃ r, optimize_with_stats no_sampler raising_runtime descending_ties_sort
         scenario_stats = Replied r
       ∧ confidence r = 1%Qc.
Proof.
  destruct (fallback_recommends_a_cheapest_order no_sampler raising_runtime
              descending_ties_sort scenario_stats) as (r & Hr & Hconf & _).
  - by left.
  - by exists r.
Defined.

(** X16.  On real hardware, with three tables or more (six candidates or
    more, so that the reduction sorts them), every run whose quantum jobs
    complete recommends a cheapest join order as well, with confidence
    exactly 1/4 and [quantum_hardware_used] set: the same answer as the
    classical fallback gives, whatever the processor measured. *)
Theorem hardware_recommends_a_cheapest_order self rt (np : NumpySort)
    (stats : TableStatistics) :
  is_Some (sampler self) →
  use_real_hardware self = true →
  is_Some (backend self) →
  (∀ h, ∃ result, hardware_job rt h = Replied result) →
  3 ≤ length stats →
  ∃ r, optimize_with_stats self rt np stats = Replied r
       ∧ confidence r = dec 1 4
       ∧ quantum_hardware_used r = true
       ∧ join_order r ≡ₚ stats.*1
       ∧ calculate_join_cost (join_order r) stats = Some (predicted_cost r)
       ∧ ∀ o, o ≡ₚ stats.*1 →
           ∃ c, calculate_join_cost o stats = Some c
                ∧ (predicted_cost r ≤ c)%Qc.
Proof.
  intros [smp Hsmp] Hreal Hback Hjob Hthree.
  destruct (create_problem_spec np stats)
    as (h & om & costs & costs0 & Hc & Hlen & Halign & Hentry & Hall & Hmin
        & Hsorted & _).
  assert (Hbig : 4 < fact (length stats)).
  { pose proof (Factorial.fact_le 3 (length stats) Hthree) as Hle.
    simpl in Hle. lia. }
  assert (Hlen4 : length costs = 4) by lia.
  pose proof (problem_nonempty _ _ Hlen) as Hne.
  destruct (aligned_is_Some _ _ Halign 0) as [e He]; [lia|].
  assert (Hc0 : costs !! 0 = Some (cost e)).
  { by rewrite <- Halign, He. }
  destruct (Hjob h) as [result Hres].
  assert (Hrun : run_quantum_optimization self rt h (Some costs)
                 = Replied (uniform (Some costs))).
  { unfold run_quantum_optimization, attempt.
    rewrite Hsmp, Hreal, bool_decide_eq_true_2 by done. simpl.
    by rewrite Hres. }
  eexists. split.
  { unfold optimize_with_stats. rewrite Hc. simpl.
    unfold solve_and_select. rewrite Hrun. simpl.
    unfold select. rewrite best_state_uniform by (done || by eexists).
    by rewrite He. }
  simpl. split.
  { rewrite Hlen4. apply (bool_decide_unpack _). by vm_compute. }
  split; [by rewrite Hreal, bool_decide_eq_true_2|].
  destruct (Hentry 0 e He) as [Hperm Hcalc].
  split; [done|]. split; [done|].
  intros o Ho. destruct (Hall o Ho) as (k & c' & Hk & Hcalc').
  exists c'. split; [done|].
  refine (Hmin 0 (cost e) Hc0 _ k c' Hk).
  intros [|j] cj Hj.
  - rewrite Hc0 in Hj. injection Hj as <-. apply Qcle_refl.
  - apply (Hsorted Hbig 0 (S j)); [lia|done..].
Qed.

Lemma hardware_recommends_a_cheapest_order_witness :
  ∃ r, optimize_with_stats on_hardware (measuring_runtime "01") stable_sort
         scenario_stats = Replied r
       ∧ confidence r = dec 1 4.
Proof.
  destruct (hardware_recommends_a_cheapest_order on_hardware
              (measuring_runtime "01") stable_sort scenario_stats)
    as (r & Hr & Hconf & _).
  - by eexists.
  - done.
  - by eexists.
  - intros h. by eexists.
  - simpl. lia.
  - by exists r.
Defined.

End WholeProgramFacts.

(** * Properties of the feature extraction and of the classification *)

Module FeatureExtractionFacts.
Import QueryVisualizer FeatureExtraction.

(** The seven-key dictionary with the given values. *)
Definition mk (j s a : Z) (g h f : bool) (len : Z) : gmap string PyVal :=
  list_to_map [("joins", VInt j); ("subqueries", VInt s);
               ("aggregations", VInt a); ("group_by", VBool g);
               ("having", VBool h); ("analytical_fn", VBool f);
               ("length", VInt len)].

Lemma bump_joins j s a g h f len :
  bump "joins" (mk j s a g h f len) = Some (mk (j + 1) s a g h f len).
Proof. reflexivity. Qed.

Lemma bump_subqueries j s a g h f len :
  bump "subqueries" (mk j s a g h f len) = Some (mk j (s + 1) a g h f len).
Proof. reflexivity. Qed.

Lemma bump_aggregations j s a g h f len :
  bump "aggregations" (mk j s a g h f len) = Some (mk j s (a + 1) g h f len).
Proof. reflexivity. Qed.

Lemma set_group_by j s a g h f len :
  <["group_by" := VBool true]> (mk j s a g h f len) = mk j s a true h f len.
Proof. reflexivity. Qed.

Lemma set_having j s a g h f len :
  <["having" := VBool true]> (mk j s a g h f len) = mk j s a g true f len.
Proof. reflexivity. Qed.

Lemma set_analytical j s a g h f len :
  <["analytical_fn" := VBool true]> (mk j s a g h f len) = mk j s a g h true len.
Proof. reflexivity. Qed.

Lemma count_tokens_snoc test stmt t :
  count_tokens test (stmt ++ [t])
  = count_tokens test stmt + (if test t then 1 else 0).
Proof.
  unfold count_tokens. rewrite filter_app, length_app, Nat2Z.inj_add.
  f_equal. rewrite filter_cons, filter_nil.
  destruct (test t); by case_decide.
Qed.

Lemma existsb_snoc (test : Token → bool) stmt t :
  existsb test (stmt ++ [t]) = existsb test stmt || test t.
Proof. rewrite existsb_app. simpl. by rewrite orb_false_r. Qed.

Lemma features_of_tokens_mk stmt query_length :
  features_of_tokens stmt query_length
  = mk (count_tokens is_join stmt) (count_tokens is_subquery stmt)
       (count_tokens is_aggregation stmt) (existsb is_group_by stmt)
       (existsb is_having stmt) (existsb is_analytical stmt)
       (Z.of_nat query_length).
Proof. done. Qed.

(** One turn of the loop, on the closed form. *)
Lemma token_step_closed stmt t query_length :
  token_step (Some (features_of_tokens stmt query_length)) t
  = Some (features_of_tokens (stmt ++ [t]) query_length).
Proof.
  rewrite !features_of_tokens_mk, !count_tokens_snoc, !existsb_snoc.
  destruct t as [v|v|v|name|]; simpl.
  - destruct (contains "JOIN" v); simpl; rewrite ?bump_joins; simpl;
      destruct (contains "GROUP BY" v); rewrite ?set_group_by;
      destruct (contains "HAVING" v); rewrite ?set_having;
      rewrite ?Z.add_0_r, ?orb_false_r, ?orb_true_r; done.
  - destruct (contains "EXISTS" v || contains "IN (" v);
      rewrite ?bump_subqueries, ?Z.add_0_r, ?orb_false_r; done.
  - destruct (contains "SELECT" v);
      rewrite ?bump_subqueries, ?Z.add_0_r, ?orb_false_r; done.
  - destruct (bool_decide (name ∈ aggregate_names)); simpl;
      [by rewrite bump_aggregations, ?Z.add_0_r, ?orb_false_r|].
    destruct (bool_decide (name ∈ analytical_names)); simpl;
      rewrite ?set_analytical, ?Z.add_0_r, ?orb_false_r, ?orb_true_r; done.
  - by rewrite !Z.add_0_r, !orb_false_r.
Qed.

Lemma token_loop_closed stmt query_length :
  foldl token_step (Some (initial_features query_length)) stmt
  = Some (features_of_tokens stmt query_length).
Proof.
  induction stmt as [|t stmt IH] using rev_ind; [done|].
  rewrite foldl_app, IH. exact (token_step_closed stmt t query_length).
Qed.

(** X17.  [extract_features] never raises and counts what it is meant to
    count: without a parsed statement it answers the error record; otherwise
    it reads the first statement only and returns the seven-key dictionary
    in which [joins] is the number of keyword tokens containing JOIN,
    [subqueries] the number of [Where] tokens containing EXISTS or "IN ("
    plus the number of parentheses containing SELECT, [aggregations] the
    number of calls of COUNT, SUM, AVG, MAX or MIN, the three flags tell
    whether a GROUP BY keyword, a HAVING keyword, a call of RANK, DENSE_RANK
    or ROW_NUMBER occurs, and [length] is the length of the query. *)
Theorem extract_features_closed_form (parsed : list (list Token))
    (query_length : nat) :
  extract_features parsed query_length
  = match parsed with
    | [] => ErrorRecord
    | stmt :: _ => Returned (features_of_tokens stmt query_length)
    end.
Proof.
  destruct parsed as [|stmt rest]; [done|].
  unfold extract_features. by rewrite token_loop_closed.
Qed.

Definition flag (b : bool) : Z := if b then 1 else 0.

Lemma compute_complexity_mk j s a g h f len :
  compute_complexity init (mk j s a g h f len)
  = Some (2 * j + 3 * s + a + flag g + 2 * flag h + 3 * flag f
          + (if bool_decide (len ≤ 150) then 0 else len)).
Proof.
  unfold compute_complexity, init; simpl.
  change (mk j s a g h f len !! "joins") with (Some (VInt j)).
  change (mk j s a g h f len !! "subqueries") with (Some (VInt s)).
  change (mk j s a g h f len !! "aggregations") with (Some (VInt a)).
  change (mk j s a g h f len !! "group_by") with (Some (VBool g)).
  change (mk j s a g h f len !! "having") with (Some (VBool h)).
  change (mk j s a g h f len !! "analytical_fn") with (Some (VBool f)).
  change (mk j s a g h f len !! "length") with (Some (VInt len)).
  simpl. case_bool_decide; simpl; f_equal; unfold flag; lia.
Qed.

Lemma count_tokens_nonneg test stmt : 0 ≤ count_tokens test stmt.
Proof. unfold count_tokens. lia. Qed.

Lemma classification_init score :
  (classification init score = "Complex" ↔ 4 ≤ score)
  ∧ (classification init score = "Simple" ↔ score < 4).
Proof.
  unfold classification, init; simpl.
  case_bool_decide; (split; split; intros; first [done | lia | exfalso; lia]).
Qed.

Lemma qubits_of_score (score : Z) (q : Z) :
  q = (if bool_decide (score ≤ 2) then 3
       else if bool_decide (score ≤ 5) then 5 else 7) →
  (q = 3 ∨ q = 5 ∨ q = 7) ∧ (q = 3 ↔ score ≤ 2) ∧ (q = 7 ↔ 6 ≤ score).
Proof.
  intros ->. repeat case_bool_decide; (split; [|split]); lia.
Qed.

(** The result of [classify] on a parsed statement. *)
Lemma classify_query_returns stmt rest query_length :
  ∃ c, classify_query init (stmt :: rest) query_length = Returned c
       ∧ features_of c = features_of_tokens stmt query_length
       ∧ complexity_score c
         = 2 * count_tokens is_join stmt + 3 * count_tokens is_subquery stmt
           + count_tokens is_aggregation stmt
           + flag (existsb is_group_by stmt)
           + 2 * flag (existsb is_having stmt)
           + 3 * flag (existsb is_analytical stmt)
           + (if bool_decide (Z.of_nat query_length ≤ 150) then 0
              else Z.of_nat query_length)
       ∧ classification_of c = classification init (complexity_score c).
Proof.
  unfold classify_query. rewrite extract_features_closed_form.
  rewrite features_of_tokens_mk, compute_complexity_mk.
  eexists. split; [done|]. by simpl.
Qed.



(** X19.  The capacity estimate that follows a classification is 3, 5 or 7
    qubits: 3 exactly for a score of at most 2, 7 exactly for a score of 6 or
    more.  A Simple query therefore never gets 7 qubits and a query longer
    than 150 characters always does.  On a dictionary without the key
    [complexity_score], such as the extracted features themselves, the
    default score 0 applies and the estimate is 3. *)
Theorem estimate_qubits_of_classification (parsed : list (list Token))
    (query_length : nat) (c : Classified) :
  classify_query init parsed query_length = Returned c →
  (estimate_qubits (result_dict c) = 3
   ∨ estimate_qubits (result_dict c) = 5
   ∨ estimate_qubits (result_dict c) = 7)
  ∧ (estimate_qubits (result_dict c) = 3 ↔ complexity_score c ≤ 2)
  ∧ (estimate_qubits (result_dict c) = 7 ↔ 6 ≤ complexity_score c)
  ∧ (classification_of c = "Simple" → estimate_qubits (result_dict c) ≠ 7)
  ∧ ((150 < query_length)%nat → estimate_qubits (result_dict c) = 7)
  ∧ estimate_qubits (features_of c) = 3.
Proof.
  intros Hc.
  destruct parsed as [|stmt rest]; [done|].
  destruct (classify_query_returns stmt rest query_length)
    as (c' & Hc' & Hfeat & Hscore & Hclass).
  rewrite Hc in Hc'. injection Hc' as <-.
  pose proof (count_tokens_nonneg is_join stmt).
  pose proof (count_tokens_nonneg is_subquery stmt).
  pose proof (count_tokens_nonneg is_aggregation stmt).
  assert (Hflag : ∀ b, 0 ≤ flag b ≤ 1) by (intros []; simpl; lia).
  pose proof (Hflag (existsb is_group_by stmt)).
  pose proof (Hflag (existsb is_having stmt)).
  pose proof (Hflag (existsb is_analytical stmt)).
  assert (Hq : estimate_qubits (result_dict c)
               = if bool_decide (complexity_score c ≤ 2) then 3
                 else if bool_decide (complexity_score c ≤ 5) then 5 else 7).
  { unfold estimate_qubits, result_dict. by rewrite lookup_insert_eq. }
  destruct (qubits_of_score _ _ Hq) as (Hrange & H3q & H7q).
  destruct (classification_init (complexity_score c)) as [_ Hsimple].
  split; [done|]. split; [done|]. split; [done|].
  split; [|split].
  - rewrite Hclass. intros Hs%Hsimple. rewrite H7q. lia.
  - intros Hlong. apply H7q. rewrite Hscore.
    rewrite (bool_decide_eq_false_2 (Z.of_nat query_length ≤ 150)) by lia.
    lia.
  - by rewrite Hfeat.
Qed.

Lemma estimate_qubits_of_classification_witness :
  ∃ c, classify_query init [sample_statement] 200 = Returned c
       ∧ estimate_qubits (result_dict c) = 7.
Proof.
  destruct (classify_query init [sample_statement] 200) as [c| |] eqn:Hc;
    [|by vm_compute in Hc..].
  exists c. split; [done|].
  apply (estimate_qubits_of_classification [sample_statement] 200 c Hc). lia.
Defined.

End FeatureExtractionFacts.

(** * The state vector of [QuantumPrep] over the reals *)

Module NormalizeFacts.
Import QuantumPrep QuantumPrepFacts.

(** The norm that [normalize_features] divides by. *)
Definition divisor (v : list R) : R :=
  if Req_dec_T (R_sqrt.sqrt (sumsq v)) 0 then 1%R else R_sqrt.sqrt (sumsq v).

Lemma normalize_features_real features :
  normalize_features (F:=R) features
  = (λ x, x / divisor (IZR <$> vector_of features))%R
    <$> (IZR <$> vector_of features).
Proof.
  unfold normalize_features, linalg_norm, divisor. cbv zeta.
  rewrite dot_sumsq.
  change (@fsqrt R real_arith) with R_sqrt.sqrt.
  change (@fdiv R real_arith) with Rdiv.
  change (@of_int R real_arith) with IZR.
  cbn [feq0 real_arith].
  by destruct (Req_dec_T _ _).
Qed.

Lemma divisor_pos v : (0 < divisor v)%R.
Proof.
  unfold divisor. destruct (Req_dec_T _ _) as [|Hne]; [lra|].
  pose proof (sqrt_pos (sumsq v)). lra.
Qed.

Lemma sumsq_fmap_mult (k : R) v :
  sumsq ((λ x, k * x)%R <$> v) = (k * k * sumsq v)%R.
Proof.
  induction v as [|x v IH]; [simpl; lra|].
  rewrite fmap_cons. cbn [sumsq]. rewrite IH. lra.
Qed.

Lemma divisor_scale (k : R) v :
  (0 < k)%R → sumsq v ≠ 0%R →
  divisor ((λ x, k * x)%R <$> v) = (k * divisor v)%R.
Proof.
  intros Hk Hs. unfold divisor. rewrite sumsq_fmap_mult.
  pose proof (sumsq_nonneg v) as Hnn.
  assert (Hpos : (0 < sumsq v)%R) by lra.
  pose proof (sqrt_lt_R0 _ Hpos) as Hsq.
  rewrite sqrt_mult by nra.
  rewrite sqrt_square by lra.
  destruct (Req_dec_T (k * _) 0) as [H0|_]; [nra|].
  destruct (Req_dec_T _ 0) as [H0|_]; [lra|]. done.
Qed.

Lemma square_le_sumsq x v : x ∈ v → (x * x <= sumsq v)%R.
Proof.
  induction 1 as [x v|x y v _ IH]; cbn [sumsq].
  - pose proof (sumsq_nonneg v). lra.
  - pose proof (Rle_0_sqr y) as Hy. unfold Rsqr in Hy. lra.
Qed.

Lemma abs_le_divisor x v : x ∈ v → (Rabs x <= divisor v)%R.
Proof.
  intros Hx. pose proof (square_le_sumsq x v Hx) as Hle.
  assert (Hsq : (Rabs x <= R_sqrt.sqrt (sumsq v))%R).
  { rewrite <- sqrt_Rsqr_abs. apply sqrt_le_1_alt. by unfold Rsqr. }
  unfold divisor. destruct (Req_dec_T _ _) as [H0|]; [|done].
  rewrite H0 in Hsq. lra.
Qed.

Lemma scale_zero_vector (k : R) (v : list R) :
  Forall (λ x, x = 0%R) v → (λ x, k * x)%R <$> v = v.
Proof.
  induction 1 as [|x v Hx _ IH]; [done|].
  rewrite fmap_cons, IH, Hx. f_equal. lra.
Qed.

(** X20.  Over the reals the state vector depends on the direction of the
    feature vector only: multiplying every feature by the same positive
    integer leaves the result of [normalize_features] unchanged. *)
Theorem normalize_features_scale_invariant
    (features1 features2 : gmap string PyVal) (k : Z) :
  0 < k →
  vector_of features2 = (λ z, k * z) <$> vector_of features1 →
  normalize_features (F:=R) features2 = normalize_features (F:=R) features1.
Proof.
  intros Hk Hv. rewrite !normalize_features_real, Hv.
  set (zs := vector_of features1).
  assert (Hmap : IZR <$> ((λ z, k * z) <$> zs)
                 = (λ x, IZR k * x)%R <$> (IZR <$> zs)).
  { rewrite <- !list_fmap_compose. apply list_fmap_ext.
    intros _ z _. simpl. apply mult_IZR. }
  rewrite Hmap. clear Hmap.
  assert (HkR : (0 < IZR k)%R) by by apply (IZR_lt 0).
  generalize (IZR <$> zs). intros v.
  destruct (Req_dec_T (sumsq v) 0) as [Hz|Hnz].
  - apply sumsq_zero in Hz.
    by rewrite (scale_zero_vector _ _ Hz).
  - rewrite divisor_scale by done.
    rewrite <- list_fmap_compose. apply list_fmap_ext.
    intros _ x _. simpl.
    pose proof (divisor_pos v). field. split; lra.
Qed.

Lemma normalize_features_scale_invariant_witness :
  normalize_features (F:=R)
    (list_to_map [("joins", VInt 2); ("subqueries", VInt 2)])
  = normalize_features (F:=R) two_ones.
Proof.
  apply (normalize_features_scale_invariant _ _ 2); [lia|done].
Defined.

(** X21.  Over the reals every component of the state vector lies between
    -1 and 1, is 0 exactly where the feature is 0 (or missing) and is
    positive exactly where the feature is positive; for features that are
    counts and flags the state vector has no negative entry. *)
Theorem normalize_features_components (features : gmap string PyVal)
    (i : nat) (x : R) :
  normalize_features (F:=R) features !! i = Some x →
  ∃ z, vector_of features !! i = Some z
       ∧ (-1 <= x <= 1)%R
       ∧ (x = 0%R ↔ z = 0)
       ∧ ((0 < x)%R ↔ 0 < z).
Proof.
  rewrite normalize_features_real.
  set (v := IZR <$> vector_of features).
  intros Hx. rewrite list_lookup_fmap in Hx.
  destruct (v !! i) as [y|] eqn:Hy; [|done]. injection Hx as <-.
  pose proof Hy as Hy'. unfold v in Hy'. rewrite list_lookup_fmap in Hy'.
  destruct (vector_of features !! i) as [z|] eqn:Hz; [|done].
  injection Hy' as <-. exists z. split; [done|].
  pose proof (divisor_pos v) as Hd.
  pose proof (abs_le_divisor _ _ (list_elem_of_lookup_2 _ _ _ Hy)) as Habs.
  assert (Hinv : (0 < / divisor v)%R) by by apply Rinv_0_lt_compat.
  split; [|split].
  - assert (Hone : (divisor v * / divisor v = 1)%R) by (field; lra).
    unfold Rabs in Habs. unfold Rdiv.
    destruct (Rcase_abs (IZR z)); nra.
  - split.
    + intros H0. apply eq_IZR_R0. unfold Rdiv in H0.
      destruct (Rmult_integral _ _ H0); [done|lra].
    + intros ->. unfold Rdiv. lra.
  - split.
    + intros Hpos. apply lt_IZR.
      unfold Rdiv in Hpos.
      destruct (Rlt_or_le 0 (IZR z)) as [|Hle]; [done|]. nra.
    + intros Hpos%IZR_lt. unfold Rdiv. nra.
Qed.

Lemma normalize_features_components_witness :
  ∃ x, normalize_features (F:=R) two_ones !! 1%nat = Some x ∧ (0 < x <= 1)%R.
Proof.
  destruct (normalize_features (F:=R) two_ones !! 1%nat) as [x|] eqn:Hx.
  - destruct (normalize_features_components two_ones 1 x Hx)
      as (z & Hz & Hb & _ & Hp).
    exists x. split; [done|]. split; [|lra].
    apply Hp. by injection Hz as <-.
  - apply lookup_ge_None in Hx.
    rewrite normalize_features_real, !length_fmap, vector_of_length in Hx.
    lia.
Defined.

End NormalizeFacts.
